(** * vigenere.py: ciphertext-only analysis of a Vigenere cipher

    A shallow embedding of [src/vigenere.py] and the properties of its
    functions.  The script works on numpy arrays of letter codes; the
    embedding keeps its data as the script has it:

    - an int array (or a Python list of ints) is a [list Z]; where the
      script does arithmetic on array elements that could leave the range of
      int64, the wrap-around is written out ([add64], [sub64]); counts and
      sums of letter codes are bounded by 25 times the length of an array
      and are exact;
    - the text [file.read()] returns is a [string], a character a byte;
    - a Python exception is a [Raise] in the [result] type, and a list
      comprehension is [mapM], which stops at the first exception;
    - a float64 is an [npfloat]: a rational, or one of the special values
      [Inf], [NaN]; the special values are there because [0/0] on an empty
      bucket produces one.

    Two things numpy leaves open are left open here.  How the matrix product
    [cipher_freqs.dot(freq_shifts)] rounds and orders its sums is up to the
    kernel that computes it: [get_key_with] takes the product as an argument,
    [float_product] says what holds of it whichever kernel runs, and what is
    proved of the index of the largest score is proved for every such
    product.  [get_key] is the reading with the product computed exactly
    ([dot]); what is stated with it (shapes, NaN, exceptions) is not a
    matter of rounding.  In which order [np.argsort] returns equal values is
    up to the sort: [ascending_argsort] says what holds of every order it may
    return, and the order of the printed profile is proved for every such
    order.

    Definitions come first, lemmas and theorems after them. *)

From Stdlib Require Import ZArith QArith Lia String Ascii.
From stdpp Require Import base tactics option list numbers sorting strings.

Local Open Scope Z_scope.

(** ** Python: exceptions, indexing, ranges, slices *)

Module Py.

Inductive exn : Set :=
| ZeroDivisionError
| IndexError
| ValueError.

Inductive result (A : Type) : Type :=
| Ok (a : A)
| Raise (e : exn).
Global Arguments Ok {A} a.
Global Arguments Raise {A} e.

Definition bind {A B} (k : A → result B) (m : result A) : result B :=
  match m with
  | Ok a => k a
  | Raise e => Raise e
  end.
Global Instance result_bind : MBind result := @bind.
Global Instance result_ret : MRet result := @Ok.

(** [[f x for x in l]]: evaluated left to right, the first exception
    aborts the comprehension. *)
Fixpoint mapM {A B} (f : A → result B) (l : list A) : result (list B) :=
  match l with
  | [] => Ok []
  | x :: l' => y ← f x; ys ← mapM f l'; Ok (y :: ys)
  end.

(** [range(lo, hi)] *)
Definition range (lo hi : Z) : list Z := seqZ lo (hi - lo).

(** [len(l)] *)
Definition len {A} (l : list A) : Z := Z.of_nat (length l).

(** [l[i]]: a negative index counts from the end; out of range raises. *)
Definition getitem {A} (l : list A) (i : Z) : result A :=
  let j := if decide (i < 0) then len l + i else i in
  if decide (j < 0) then Raise IndexError
  else match l !! Z.to_nat j with
       | Some x => Ok x
       | None => Raise IndexError
       end.

(** [a % b] on ints: the sign of the result follows the divisor, which is
    what [Z.modulo] does. *)
Definition mod_ (a b : Z) : result Z :=
  if decide (b = 0) then Raise ZeroDivisionError else Ok (a `mod` b).

(** [l[start::step]] for [0 <= start] and [1 <= step]: the elements at
    [start], [start+step], ... below [len(l)]; CPython computes the number
    of elements as [(len - start + step - 1) // step]. *)
Definition slice_indices (n start step : nat) : list nat :=
  (λ k, start + k * step)%nat <$> seq 0 ((n - start + step - 1) / step)%nat.

Definition slice_step {A} (l : list A) (start step : nat) : list A :=
  omap (l !!.) (slice_indices (length l) start step).

(** [chr(i)]: the character of code point [i], here the code point itself;
    outside [range(0x110000)] it raises (ValueError; an older CPython
    raises OverflowError for an [i] beyond a C int, and the properties
    below only say that it raises). *)
Definition chr (i : Z) : result Z :=
  if decide (0 ≤ i < 1114112) then Ok i else Raise ValueError.

End Py.
Import Py.

(** ** numpy: float64 values, 1-D and 2-D arrays *)

Module Np.

(** A float64: a finite value (the rational it stands for), an infinity
    with its sign, or NaN. *)
Inductive npfloat : Set :=
| Fin (q : Q)
| Inf (negative : bool)
| NaN.

Definition is_nan (x : npfloat) : bool :=
  match x with NaN => true | _ => false end.

Definition not_nan (x : npfloat) : Prop := is_nan x = false.
Definition is_fin (x : npfloat) : Prop := ∃ q, x = Fin q.

(** A finite value that is not negative. *)
Definition nonneg_finite (x : npfloat) : Prop := ∃ q, x = Fin q ∧ (0 <= q)%Q.

(** The sum and the product of two values, exact on finite values: what
    float64 [+] and [*] round to a neighbouring float64.  The special values
    follow IEEE 754.  They serve where rounding decides nothing (adding
    zeros, NaN and the shapes of arrays) and for the exact product [dot]. *)
Definition fadd (x y : npfloat) : npfloat :=
  match x, y with
  | NaN, _ | _, NaN => NaN
  | Fin a, Fin b => Fin (a + b)
  | Inf s, Fin _ | Fin _, Inf s => Inf s
  | Inf s, Inf s' => if Bool.eqb s s' then Inf s else NaN
  end.

Definition fmul (x y : npfloat) : npfloat :=
  match x, y with
  | NaN, _ | _, NaN => NaN
  | Fin a, Fin b => Fin (a * b)
  | Inf s, Fin a | Fin a, Inf s =>
      if Qeq_bool a 0 then NaN else Inf (xorb s (negb (Qle_bool 0 a)))
  | Inf s, Inf s' => Inf (xorb s s')
  end.

(** [x <= y] on float64: false as soon as one side is NaN. *)
Definition fle (x y : npfloat) : bool :=
  match x, y with
  | NaN, _ | _, NaN => false
  | Fin a, Fin b => Qle_bool a b
  | Inf true, _ | _, Inf false => true
  | Inf false, _ | _, Inf true => false
  end.

(** [a / b] for an int [a] and an int [b]: true division, a float64.
    Dividing by zero raises nothing (numpy warns): [0/0] is NaN and
    [a/0] an infinity of the sign of [a]. *)
Definition true_divide (a b : Z) : npfloat :=
  if decide (b = 0) then
    if decide (a = 0) then NaN else Inf (bool_decide (a < 0))
  else Fin (inject_Z a / inject_Z b).

(** An element of an int array is an int64.  Its [+] and [-] wrap around
    at 64 bits (numpy warns and goes on); [wrap64] brings an integer into
    [-2^63, 2^63). *)
Definition wrap64 (z : Z) : Z := (z + 2 ^ 63) `mod` 2 ^ 64 - 2 ^ 63.
Definition add64 (a b : Z) : Z := wrap64 (a + b).
Definition sub64 (a b : Z) : Z := wrap64 (a - b).

(** [np.sum] of an int array, and of a float array. *)
Definition sum (a : list Z) : Z := foldr Z.add 0 a.
Definition fsum (a : list npfloat) : npfloat := foldr fadd (Fin 0) a.

(** [a == b] on two int arrays of one shape, [a == c] against a scalar;
    a bool array counts as 0/1 under [np.sum]. *)
Definition eq_array (a b : list Z) : list bool := zip_with Z.eqb a b.
Definition eq_scalar (a : list Z) (c : Z) : list bool := (λ x, x =? c) <$> a.
Definition sum_bool (m : list bool) : Z := sum (Z.b2z <$> m).

(** [a[mask]]: the elements of [a] where the bool array [mask] is True. *)
Definition select {A} (a : list A) (mask : list bool) : list A :=
  fst <$> filter (λ p, p.2 = true) (zip a mask).

(** [np.roll(a, shift)] on a 1-D array: [offset = shift % (len(a) or 1)];
    the last [offset] elements move to the front
    ([result[offset:] = a[:-offset]], [result[:offset] = a[-offset:]]). *)
Definition roll {A} (a : list A) (shift : Z) : list A :=
  let n := length a in
  let offset := Z.to_nat (shift `mod` Z.of_nat (if decide (n = 0)%nat then 1 else n)) in
  drop (n - offset) a ++ take (n - offset) a.

(** A 2-D array is the list of its rows. [v.reshape(n, 1)] of a 1-D array
    of [n] elements is a column; [np.hstack] concatenates blocks row by
    row; [m[:, i]] is column [i]; [m[j][i]] is an entry. *)
Definition reshape_column {A} (v : list A) : list (list A) := (λ x, [x]) <$> v.

Definition hstack {A} (blocks : list (list (list A))) : list (list A) :=
  match blocks with
  | [] => []
  | m :: _ => (λ j, blocks ≫= (λ b, default [] (b !! j))) <$> seq 0 (length m)
  end.

Definition column {A} (m : list (list A)) (i : nat) : list A := omap (.!! i) m.
Definition entry {A} (m : list (list A)) (j i : nat) : option A := m !! j ≫= (.!! i).

(** A list of rows is a 2-D array of shape [(rows, cols)]. *)
Definition shape {A} (m : list (list A)) (rows cols : nat) : Prop :=
  length m = rows ∧ Forall (λ r, length r = cols) m.

(** [a.dot(b)] for 2-D float64 [a] and [b].  Entry [(p, i)] of the result
    stands for the sum over [j] of [a[p][j] * b[j][i]]; numpy hands the
    product to a BLAS kernel, which rounds every product and every partial
    sum and adds in an order of its own, so which float64 an entry is
    depends on the kernel.  [float_product product] says what holds of
    [product a b] for every kernel, on an [a] of shape [(m, n)] and a [b]
    of shape [(n, k)] with [m] and [n] at least 1:
    - the product raises nothing and has the shape [(m, k)];
    - row [p] of the result is computed from row [p] of [a] and from [b]:
      when these hold finite values that are not negative, every rounded
      product and partial sum is a value that is not negative, or the
      positive infinity, and so is the entry: never NaN. *)
Record float_product
    (product : list (list npfloat) → list (list npfloat) → result (list (list npfloat)))
    : Prop := {
  product_shape a b (m n k : nat) :
    (0 < m)%nat → (0 < n)%nat → shape a m n → shape b n k →
    ∃ R, product a b = Ok R ∧ shape R m k;
  product_not_nan a b (m n k : nat) R p row r :
    (0 < m)%nat → (0 < n)%nat → shape a m n → shape b n k →
    product a b = Ok R → a !! p = Some row → R !! p = Some r →
    Forall nonneg_finite row → Forall (Forall nonneg_finite) b →
    Forall not_nan r
}.

(** The product with every sum and product exact, [dot], is the one the
    float64 product approximates; it raises where the shapes do not agree. *)
Definition vdot (u v : list npfloat) : npfloat := fsum (zip_with fmul u v).

Definition dot (a b : list (list npfloat)) : result (list (list npfloat)) :=
  if bool_decide (a ≠ [] ∧ Forall (λ row, length row = length b) a) then
    Ok ((λ row, (λ i, vdot row (column b i)) <$> seq 0 (length (default [] (head b))))
          <$> a)
  else Raise ValueError.

(** [np.argmax] of a 1-D float array: the index of the first occurrence
    of the maximum, a NaN counting as maximal.  The scan keeps the running
    maximum [mp] and replaces it when [not (x <= mp)]; it stops at the
    first NaN.  An empty array raises. *)
Fixpoint argmax_scan (mp : npfloat) (max_ind i : nat) (rest : list npfloat) : nat :=
  match rest with
  | [] => max_ind
  | x :: rest' =>
      if fle x mp then argmax_scan mp max_ind (S i) rest'
      else if is_nan x then i
      else argmax_scan x i (S i) rest'
  end.

Definition argmax (a : list npfloat) : result nat :=
  match a with
  | [] => Raise ValueError
  | x :: rest => Ok (if is_nan x then 0%nat else argmax_scan x 0 1 rest)
  end.

(** [np.argsort] of a 1-D int array.  numpy promises an order of the
    indices in which the values ascend ([ascending_argsort] below); its
    default sort is not stable, and the order in which the indices of equal
    values come out depends on the sorting kernel numpy picks for the
    machine.  [argsort] is one order it may return, that of an insertion
    sort of the indices; nothing is stated of the script that holds of this
    order and not of every [ascending_argsort].  [item v i] is [v[i]] for an
    index of the array. *)
Definition item (v : list Z) (i : nat) : Z := default 0 (v !! i).

Fixpoint argsort_insert (v : list Z) (vi : nat) (sorted : list nat) : list nat :=
  match sorted with
  | [] => [vi]
  | pk :: rest =>
      if bool_decide (item v vi < item v pk)
      then vi :: pk :: rest
      else pk :: argsort_insert v vi rest
  end.

Definition argsort (v : list Z) : list nat :=
  foldl (λ sorted vi, argsort_insert v vi sorted) [] (seq 0 (length v)).

(** The order [argsort] puts indices in: by value, and by index among equal
    values. *)
Definition before (v : list Z) (i j : nat) : Prop :=
  item v i < item v j ∨ (item v i = item v j ∧ (i < j)%nat).

(** What numpy promises of [order = np.argsort(v)], whichever sort runs:
    every index of [v] once, the values ascending along [order]. *)
Definition ascending_argsort (v : list Z) (order : list nat) : Prop :=
  order ≡ₚ seq 0 (length v) ∧ StronglySorted (λ i j, item v i ≤ item v j) order.

(** [np.argmax] of a 1-D int array: the index of the first occurrence of
    the maximum (the running maximum is replaced by a strictly greater
    element only); an empty array raises. *)
Fixpoint argmax_int_scan (mp : Z) (max_ind i : nat) (rest : list Z) : nat :=
  match rest with
  | [] => max_ind
  | x :: rest' =>
      if bool_decide (mp < x) then argmax_int_scan x i (S i) rest'
      else argmax_int_scan mp max_ind (S i) rest'
  end.

Definition argmax_int (a : list Z) : result nat :=
  match a with
  | [] => Raise ValueError
  | x :: rest => Ok (argmax_int_scan x 0 1 rest)
  end.

(** [np.arange(0, n)]; [v[a]] for an array [a] of indices (out of bounds
    raises); [a != c] against a scalar. *)
Definition arange (n : nat) : list nat := seq 0 n.

Definition take_indices (v : list Z) (a : list nat) : result (list Z) :=
  mapM (λ i, match v !! i with Some x => Ok x | None => Raise IndexError end) a.

Definition ne_scalar (a : list nat) (c : nat) : list bool := (λ x, negb (x =? c)%nat) <$> a.

End Np.
Import Np.

(** ** The script *)

(** [alpha_freqs]: the occurrence frequencies of A..Z in English, the
    decimal literals of the script. *)
Definition alpha_freqs : list npfloat :=
  (λ n : Z, Fin (n # 100000)) <$>
    [ 8167; 1492; 2782; 4253; 12702; 2228;
      2015; 6094; 6966; 153; 772; 4025;
      2406; 6749; 7507; 1929; 95; 5987;
      6327; 9056; 2758; 978; 2360; 150;
      1974; 74 ].

(** [freq_shifts]:
    [np.hstack([np.roll(alpha_freqs,i).reshape(26,1) for i in range(0,26)])] *)
Definition freq_shifts : list (list npfloat) :=
  hstack ((λ i, reshape_column (roll alpha_freqs i)) <$> range 0 26).

(** [ord(c)] *)
Definition ord (c : ascii) : Z := Z.of_nat (nat_of_ascii c).

(** The line feed, ['\n']. *)
Definition newline : ascii := ascii_of_nat 10.

(** [get_cipher_text(file)], as a function of what [file.read()] returns:
    [ciphertext=file.read().replace('\n', '')] then
    [np.array([ord(c) for c in ciphertext]) - 65].  Nothing in it raises,
    and a code [ord(c) - 65] is far from the limits of int64. *)
Definition get_cipher_text (contents : string) : result (list Z) :=
  let ciphertext := filter (λ c, c ≠ newline) (list_ascii_of_string contents) in
  Ok ((λ x, x - 65) <$> (ord <$> ciphertext)).

(** [get_shifts(ciphertext, shift_max)]:
    [[np.sum(ciphertext == np.roll(ciphertext, i)) for i in range(1,shift_max+1)]] *)
Definition get_shifts (ciphertext : list Z) (shift_max : Z) : list Z :=
  (λ i, sum_bool (eq_array ciphertext (roll ciphertext i))) <$> range 1 (shift_max + 1).

(** [get_buckets(ciphertext, key_length)]:
    [[ciphertext[i::key_length] for i in range(0, key_length)]].
    For [key_length <= 0] the range is empty and no slice is taken, so every
    slice that is taken has [0 <= i] and [1 <= key_length]. *)
Definition get_buckets (ciphertext : list Z) (key_length : Z) : list (list Z) :=
  (λ i, slice_step ciphertext (Z.to_nat i) (Z.to_nat key_length))
    <$> range 0 key_length.

(** [cipher_freqs] of [get_key]:
    [[[np.sum(ct[ct == c])/len(ct) for c in range(0,26)] for ct in buckets]];
    [freq_row ct] is the inner comprehension, the row of one bucket. *)
Definition freq_row (ct : list Z) : list npfloat :=
  (λ c, true_divide (Np.sum (select ct (eq_scalar ct c))) (len ct)) <$> range 0 26.

Definition cipher_freqs (buckets : list (list Z)) : list (list npfloat) :=
  freq_row <$> buckets.

(** [R = cipher_freqs.dot(freq_shifts)], for the matrix product [product]. *)
Definition scores_with
    (product : list (list npfloat) → list (list npfloat) → result (list (list npfloat)))
    (buckets : list (list Z)) : result (list (list npfloat)) :=
  product (cipher_freqs buckets) freq_shifts.

(** [get_key(buckets)]: [[np.argmax(r) for r in R]] *)
Definition get_key_with
    (product : list (list npfloat) → list (list npfloat) → result (list (list npfloat)))
    (buckets : list (list Z)) : result (list Z) :=
  R ← scores_with product buckets;
  mapM (λ r, i ← argmax r; Ok (Z.of_nat i)) R.

(** [R] and [get_key(buckets)] with the product computed exactly. *)
Definition scores (buckets : list (list Z)) : result (list (list npfloat)) :=
  scores_with dot buckets.

Definition get_key (buckets : list (list Z)) : result (list Z) :=
  get_key_with dot buckets.

(** [decode(ciphertext, key)]:
    [[(26+ciphertext[i] - key[i%len(key)]) % 26 for i in range(0, len(ciphertext))]].
    The elements of [ciphertext] and [key] are int64 (an array read by
    [get_cipher_text], the results of [np.argmax]), so [+] and [-] are
    those of int64; [%] on an int64 and 26 is the floored remainder. *)
Definition decode (ciphertext key : list Z) : result (list Z) :=
  mapM (λ i,
          c ← getitem ciphertext i;
          m ← mod_ i (len key);
          k ← getitem key m;
          Ok (sub64 (add64 26 c) k `mod` 26))
       (range 0 (len ciphertext)).

(** The lines the script prints for the coincidence counts [shifts], as
    pairs (shift, count) in print order:
    [for i in np.argsort(shifts)[::-1]: print(f"Shift {i+1}: {shifts[i]} coincidences.")]
    [print_lines order shifts] is the loop over a given order of indices;
    the script runs it over [reverse order] for the [order] that
    [np.argsort(shifts)] returns.  [report] is the loop for the order
    [argsort]: the lines of the script, up to the order of lines of equal
    count. *)
Definition print_lines (order : list nat) (shifts : list Z) : list (Z * Z) :=
  omap (λ i : nat, c ← shifts !! i; Some (Z.of_nat i + 1, c)) order.

Definition report (shifts : list Z) : list (Z * Z) :=
  print_lines (reverse (argsort shifts)) shifts.

(** ** The rest of the script *)

(** [ints_to_string(ch)]: [''.join([chr(c+97) for c in ch])].  The string
    is the list of its code points; the elements of [ch] are int64, as in
    [decode]. *)
Definition ints_to_string (ch : list Z) : result (list Z) :=
  mapM (λ c, chr (add64 c 97)) ch.

(** [get_top_shifts(shifts, N)]: [top = np.array([])],
    [a = np.arange(0,len(shifts))], then for each [i] of [range(0,N)]:
    [n = np.argmax(shifts[a])], [top = np.append(top,a[n]+1)],
    [a = a[a != a[n]]]; [top] is returned, a float64 array. *)
Fixpoint top_shifts_loop (shifts : list Z) (iterations : list Z)
    (top : list npfloat) (a : list nat) : result (list npfloat) :=
  match iterations with
  | [] => Ok top
  | _ :: iterations' =>
      vals ← take_indices shifts a;
      n ← argmax_int vals;
      an ← match a !! n with Some an => Ok an | None => Raise IndexError end;
      top_shifts_loop shifts iterations'
        (top ++ [Fin (inject_Z (Z.of_nat an + 1))])
        (select a (ne_scalar a an))
  end.

Definition get_top_shifts (shifts : list Z) (N : Z) : result (list npfloat) :=
  top_shifts_loop shifts (range 0 N) [] (arange (length shifts)).

(** The body of the script after the usage check, as a function of the text
    [file.read()] returns and of the integer read at the prompt: the lines
    printed, in order, and the exception that ended the run, if one did.
    The text is what Python makes of the file's bytes: decoded, and with
    every line ending (CR, CR LF) turned into a line feed.  Opening the
    file, the read itself (which raises on bytes that do not decode, before
    anything is printed) and [int(input(...))] are outside it.
    [run_with] takes the matrix product of [get_key] and the sort behind
    [np.argsort] as arguments; [run] is the reading with the exact product
    and the order [argsort], whose coincidence lines are those of the script
    up to the order of lines of equal count, and whose key is that of the
    script up to what rounding decides between nearly equal scores. *)
Inductive line : Type :=
| ShiftLine (shift count : Z)
| KeyLine (key : list Z)
| TextLine (text : list Z).

Definition run_with
    (product : list (list npfloat) → list (list npfloat) → result (list (list npfloat)))
    (sort : list Z → list nat)
    (contents : string) (key_length : Z) : list line * option exn :=
  match get_cipher_text contents with
  | Raise e => ([], Some e)
  | Ok ciphertext =>
      let shifts := get_shifts ciphertext 16 in
      let profile :=
        (λ l : Z * Z, ShiftLine l.1 l.2) <$> print_lines (reverse (sort shifts)) shifts in
      let buckets := get_buckets ciphertext key_length in
      match get_key_with product buckets with
      | Raise e => (profile, Some e)
      | Ok key =>
          match ints_to_string key with
          | Raise e => (profile, Some e)
          | Ok key_string =>
              match plaintext ← decode ciphertext key; ints_to_string plaintext with
              | Raise e => (profile ++ [KeyLine key_string], Some e)
              | Ok text => (profile ++ [KeyLine key_string; TextLine text], None)
              end
          end
      end
  end.

Definition run (contents : string) (key_length : Z) : list line * option exn :=
  run_with dot argsort contents key_length.

(** ** Notions the properties are stated with *)

(** A Letter Code is an int in [0, 25]. *)
Definition letter_code (x : Z) : Prop := 0 ≤ x < 26.

(** The script has no encryption function.  [shift_by_key] is the
    encryption the round-trip property speaks of, written from its formula
    [ciphertext[i] = (P[i] + K[i mod |K|]) mod 26]. *)
Definition shift_by_key (P K : list Z) : list Z :=
  imap (λ i p, (p + default 0 (K !! (i `mod` length K)%nat)) `mod` 26) P.

(** The number of index positions [i] in [0, N) such that
    [ciphertext[i] == ciphertext[(i+s) mod N]]: the coincidence count of
    shift [s] as the specification words it. *)
Definition coincidences (ciphertext : list Z) (s : Z) : nat :=
  length (filter
            (λ i : nat, ciphertext !! i
                        = ciphertext !! Z.to_nat ((Z.of_nat i + s) `mod` len ciphertext))
            (seq 0 (length ciphertext))).

(** Orderings of printed lines: counts never increase down the lines; among
    lines of equal count the smaller shift comes first. *)
Definition descending_counts (lines : list (Z * Z)) : Prop :=
  ∀ p q s1 c1 s2 c2, (p < q)%nat →
    lines !! p = Some (s1, c1) → lines !! q = Some (s2, c2) → c2 ≤ c1.

Definition ties_smaller_shift_first (lines : list (Z * Z)) : Prop :=
  ∀ p q s1 c1 s2 c2, (p < q)%nat →
    lines !! p = Some (s1, c1) → lines !! q = Some (s2, c2) → c1 = c2 → s1 < s2.

(** The index positions of the ciphertext that go into bucket [p]: those
    the slice [ciphertext[p::key_length]] takes. *)
Definition bucket_indices (n : nat) (key_length : Z) (p : nat) : list nat :=
  slice_indices n p (Z.to_nat key_length).

(** Interleaving buckets by position: the first element of every bucket
    that has one, in bucket order, then the second elements, and so on, for
    as many rounds as the longest bucket has elements. *)
Fixpoint interleave_rounds {A} (rounds : nat) (buckets : list (list A)) : list A :=
  match rounds with
  | O => []
  | S r => omap head buckets ++ interleave_rounds r (tail <$> buckets)
  end.

Definition interleave {A} (buckets : list (list A)) : list A :=
  interleave_rounds (max_list (length <$> buckets)) buckets.

(** The empirical frequency of Letter Code [c] in a bucket as the
    specification words it: the number of occurrences of [c] in the bucket
    divided by the length of the bucket. *)
Definition occurrences (ct : list Z) (c : Z) : nat := length (filter (λ x, x = c) ct).

Definition empirical_frequency (ct : list Z) (c : Z) : Q :=
  inject_Z (Z.of_nat (occurrences ct c)) / inject_Z (len ct).

(** Row [p] of [R] with the product computed exactly, for the bucket [ct]
    at position [p]: entry [i] is the product of the bucket's row of
    [cipher_freqs] with column [i] of [freq_shifts]. *)
Definition score_row (ct : list Z) : list npfloat :=
  (λ i, vdot (freq_row ct) (column freq_shifts i)) <$> seq 0 26.

(** The code points of the small letters. *)
Definition small_letter (x : Z) : Prop := 97 ≤ x ≤ 122.

(** The order [get_top_shifts] picks indices in: by count, larger first,
    and by index among equal counts, smaller first. *)
Definition ranks_before (shifts : list Z) (i j : nat) : Prop :=
  item shifts j < item shifts i ∨ (item shifts i = item shifts j ∧ (i < j)%nat).

(** The tables are constants of 26 and 26 x 26 rationals: proofs go through
    their lemmas, not through unfolding them. *)
Global Arguments alpha_freqs : simpl never.
Global Arguments freq_shifts : simpl never.
Global Arguments freq_row : simpl never.
Global Arguments score_row : simpl never.

(** * Lemmas and theorems *)

Section mapM_facts.
Context {A B : Type}.
Implicit Types (f : A → result B) (l : list A).

Lemma mapM_Ok_map f (g : A → B) l :
  (∀ x, x ∈ l → f x = Ok (g x)) → mapM f l = Ok (g <$> l).
Proof.
  induction l as [|x l IH]; intros Hf; [done|]. simpl.
  rewrite (Hf x) by constructor. simpl.
  rewrite IH; [done|]. intros y Hy. apply Hf. by constructor.
Qed.
End mapM_facts.

Lemma length_range lo hi : length (range lo hi) = Z.to_nat (hi - lo).
Proof. unfold range. by rewrite length_seqZ. Qed.

Lemma range_0_nat (n : Z) : range 0 n = Z.of_nat <$> seq 0 (Z.to_nat n).
Proof.
  unfold range, seqZ. rewrite Z.sub_0_r. apply list_fmap_ext. intros; lia.
Qed.

Lemma range_0_len {A} (l : list A) : range 0 (len l) = Z.of_nat <$> seq 0 (length l).
Proof. unfold len. by rewrite range_0_nat, Nat2Z.id. Qed.

Lemma getitem_nat {A} (l : list A) (i : nat) x :
  l !! i = Some x → getitem l (Z.of_nat i) = Ok x.
Proof.
  intros Hx. unfold getitem. cbv zeta.
  repeat case_decide; try lia. by rewrite Nat2Z.id, Hx.
Qed.

(** What one step of the comprehension in [decode] computes, for an index
    inside the ciphertext and a key that is not empty. *)
Lemma decode_step ciphertext key (i : nat) c :
  key ≠ [] → ciphertext !! i = Some c →
  ∃ k, key !! (i `mod` length key)%nat = Some k ∧
    (c ← getitem ciphertext (Z.of_nat i);
     m ← mod_ (Z.of_nat i) (len key);
     k ← getitem key m;
     Ok (sub64 (add64 26 c) k `mod` 26)) = Ok (sub64 (add64 26 c) k `mod` 26).
Proof.
  intros Hkey Hc.
  assert (0 < length key)%nat as Hlen by (destruct key; simpl; [done|lia]).
  destruct (lookup_lt_is_Some_2 key (i `mod` length key)%nat) as [k Hk].
  { apply Nat.mod_upper_bound. lia. }
  exists k. split; [done|].
  rewrite (getitem_nat _ _ _ Hc). simpl.
  unfold mod_, len. rewrite decide_False by lia. simpl.
  rewrite <- Nat2Z.inj_mod. by rewrite (getitem_nat _ _ _ Hk).
Qed.

(** [decode] with a key that is not empty raises nothing, and its output is
    given index by index. *)
Lemma decode_Ok ciphertext key :
  key ≠ [] →
  decode ciphertext key =
    Ok (imap (λ i c, sub64 (add64 26 c) (default 0 (key !! (i `mod` length key)%nat))
                     `mod` 26)
             ciphertext).
Proof.
  intros Hkey. unfold decode.
  rewrite range_0_len.
  erewrite (mapM_Ok_map _
    (λ i, sub64 (add64 26 (default 0 (ciphertext !! Z.to_nat i)))
                (default 0 (key !! (Z.to_nat i `mod` length key)%nat)) `mod` 26)).
  - f_equal. apply list_eq. intros i.
    rewrite list_lookup_fmap, list_lookup_fmap, list_lookup_imap.
    destruct (ciphertext !! i) as [c|] eqn:Hc.
    + rewrite lookup_seq_lt by (by eapply lookup_lt_Some). simpl.
      by rewrite Nat2Z.id, Hc.
    + rewrite lookup_seq_ge by (by apply lookup_ge_None). done.
  - intros z (i & -> & Hi)%list_elem_of_fmap. apply elem_of_seq in Hi.
    destruct (lookup_lt_is_Some_2 ciphertext i) as [c Hc]; [lia|].
    destruct (decode_step ciphertext key i c Hkey Hc) as (k & Hk & ->).
    by rewrite Nat2Z.id, Hc, Hk.
Qed.

Lemma wrap64_small z : - 2 ^ 63 ≤ z < 2 ^ 63 → wrap64 z = z.
Proof. intros Hz. unfold wrap64. rewrite Z.mod_small; lia. Qed.

Lemma unshift_shift p k :
  letter_code p → letter_code k → sub64 (add64 26 ((p + k) `mod` 26)) k `mod` 26 = p.
Proof.
  intros Hp Hk. unfold letter_code in Hp, Hk.
  pose proof (Z.mod_pos_bound (p + k) 26 ltac:(lia)).
  unfold sub64, add64. rewrite !wrap64_small by (rewrite ?wrap64_small; lia).
  replace (26 + (p + k) `mod` 26 - k) with ((p + k) `mod` 26 - k + 1 * 26) by lia.
  rewrite Z.mod_add by lia.
  rewrite Zminus_mod_idemp_l.
  replace (p + k - k) with p by lia. by apply Z.mod_small.
Qed.

(** C2. Round trip: for a plaintext [P] of Letter Codes and a key [K] of
    Letter Codes with at least one element, decoding with [K] the sequence
    [(P[i] + K[i mod |K|]) mod 26] gives back [P], whatever the length of
    [P] (no relation between [length P] and [length K] is assumed). *)
Theorem decode_shift_by_key_roundtrip (P K : list Z) :
  K ≠ [] → Forall letter_code P → Forall letter_code K →
  decode (shift_by_key P K) K = Ok P.
Proof.
  intros HK HP HKcodes. rewrite decode_Ok by done. f_equal.
  unfold shift_by_key. apply list_eq. intros i.
  rewrite !list_lookup_imap.
  destruct (P !! i) as [p|] eqn:Hp; [|done]. simpl. f_equal.
  assert (0 < length K)%nat as Hlen by (destruct K; simpl; [done|lia]).
  destruct (lookup_lt_is_Some_2 K (i `mod` length K)%nat) as [k Hk].
  { apply Nat.mod_upper_bound. lia. }
  rewrite Hk. simpl.
  apply unshift_shift;
    [exact (Forall_lookup_1 _ _ _ _ HP Hp)|exact (Forall_lookup_1 _ _ _ _ HKcodes Hk)].
Qed.

Lemma decode_shift_by_key_roundtrip_witness :
  decode (shift_by_key [7; 4; 11; 11; 14] [10; 4; 24]) [10; 4; 24]
  = Ok [7; 4; 11; 11; 14].
Proof.
  apply decode_shift_by_key_roundtrip.
  - discriminate.
  - repeat constructor; unfold letter_code; lia.
  - repeat constructor; unfold letter_code; lia.
Defined.

(** C10. For a ciphertext of arbitrary ints and a key of arbitrary ints that
    is not empty, [decode] raises nothing and returns one element per
    ciphertext element, each of them in [0, 25]. *)
Theorem decode_output_letter_codes (ciphertext key : list Z) :
  key ≠ [] →
  ∃ out, decode ciphertext key = Ok out
         ∧ length out = length ciphertext
         ∧ Forall letter_code out.
Proof.
  intros Hkey. eexists. split; [by apply decode_Ok|]. split.
  - by rewrite length_imap.
  - apply Forall_forall. intros x Hx.
    apply list_elem_of_lookup in Hx as [i Hi].
    rewrite list_lookup_imap in Hi.
    destruct (ciphertext !! i); simplify_eq/=.
    unfold letter_code. apply Z.mod_pos_bound. lia.
Qed.

Lemma decode_output_letter_codes_witness :
  ∃ out, decode [-65; 1000; 3; 129] [-7; 40] = Ok out
         ∧ length out = 4%nat
         ∧ Forall letter_code out.
Proof. apply (decode_output_letter_codes [-65; 1000; 3; 129] [-7; 40]). discriminate. Defined.

(** ** Slices and buckets *)

Lemma omap_lookup_total {A B} (f : A → option B) (l : list A) (k : nat) :
  (∀ x, x ∈ l → is_Some (f x)) → omap f l !! k = l !! k ≫= f.
Proof.
  revert k. induction l as [|x l IH]; intros k Hf; [done|].
  destruct (Hf x) as [y Hy]; [by constructor|].
  simpl. rewrite Hy. destruct k as [|k]; simpl; [done|].
  apply IH. intros z Hz. apply Hf. by constructor.
Qed.

Lemma length_omap_total {A B} (f : A → option B) (l : list A) :
  (∀ x, x ∈ l → is_Some (f x)) → length (omap f l) = length l.
Proof.
  induction l as [|x l IH]; intros Hf; [done|].
  destruct (Hf x) as [y Hy]; [by constructor|].
  simpl. rewrite Hy. simpl. f_equal. apply IH. intros z Hz. apply Hf. by constructor.
Qed.

Lemma slice_count_lt (n start step k : nat) :
  (0 < step)%nat →
  (k < (n - start + step - 1) / step)%nat ↔ (start + k * step < n)%nat.
Proof.
  intros Hstep. split.
  - intros Hk. destruct (decide (start + k * step < n)%nat) as [|Hge]; [done|].
    exfalso. apply Nat.nlt_ge in Hge.
    assert ((n - start + step - 1) / step < S k)%nat; [|lia].
    apply Nat.Div0.div_lt_upper_bound; nia.
  - intros Hlt. apply (Nat.div_le_lower_bound _ _ (S k)); nia.
Qed.

Lemma slice_indices_lookup (n start step k : nat) :
  (0 < step)%nat →
  slice_indices n start step !! k =
    if decide (start + k * step < n)%nat then Some (start + k * step)%nat else None.
Proof.
  intros Hstep. unfold slice_indices. rewrite list_lookup_fmap.
  pose proof (slice_count_lt n start step k Hstep) as Hcnt.
  case_decide as Hlt.
  - rewrite lookup_seq_lt by (by apply Hcnt). done.
  - rewrite lookup_seq_ge; [done|]. apply Nat.nlt_ge. by rewrite Hcnt.
Qed.

Lemma elem_of_slice_indices (n start step i : nat) :
  (0 < step)%nat →
  i ∈ slice_indices n start step ↔ (i < n)%nat ∧ ∃ k, i = (start + k * step)%nat.
Proof.
  intros Hstep. rewrite list_elem_of_lookup. split.
  - intros [k Hk]. rewrite slice_indices_lookup in Hk by done.
    case_decide; simplify_eq. eauto.
  - intros [Hi [k ->]]. exists k. rewrite slice_indices_lookup by done.
    by rewrite decide_True.
Qed.

Lemma slice_step_lookup {A} (l : list A) (start step k : nat) :
  (0 < step)%nat → slice_step l start step !! k = l !! (start + k * step)%nat.
Proof.
  intros Hstep. unfold slice_step. rewrite omap_lookup_total.
  - rewrite slice_indices_lookup by done. case_decide; simpl; [done|].
    symmetry. apply lookup_ge_None. lia.
  - intros i [Hi _]%elem_of_slice_indices; [|done].
    by apply lookup_lt_is_Some_2.
Qed.

Lemma length_slice_step {A} (l : list A) (start step : nat) :
  (0 < step)%nat →
  length (slice_step l start step) = length (slice_indices (length l) start step).
Proof.
  intros Hstep. unfold slice_step. apply length_omap_total.
  intros i [Hi _]%elem_of_slice_indices; [|done]. by apply lookup_lt_is_Some_2.
Qed.

Lemma get_buckets_length ciphertext key_length :
  length (get_buckets ciphertext key_length) = Z.to_nat key_length.
Proof.
  unfold get_buckets. rewrite length_fmap, length_range. f_equal. lia.
Qed.

Lemma get_buckets_lookup ciphertext key_length (p : nat) :
  get_buckets ciphertext key_length !! p =
    if decide (p < Z.to_nat key_length)%nat
    then Some (slice_step ciphertext p (Z.to_nat key_length)) else None.
Proof.
  unfold get_buckets. rewrite range_0_nat, <- list_fmap_compose, list_lookup_fmap.
  case_decide.
  - rewrite lookup_seq_lt by done. simpl. by rewrite Nat2Z.id.
  - rewrite lookup_seq_ge by lia. done.
Qed.

(** The first elements of the buckets are the first [key_length] elements of
    the ciphertext; what is left of the buckets are the buckets of the rest. *)
Lemma omap_lookup_seq {A} (l : list A) (a n : nat) :
  omap (l !!.) (seq a n) = take n (drop a l).
Proof.
  revert a. induction n as [|n IH]; intros a; [by rewrite take_0|].
  simpl. destruct (l !! a) as [x|] eqn:Hx.
  - rewrite IH. by rewrite (drop_S l x a Hx).
  - rewrite IH. apply lookup_ge_None in Hx.
    by rewrite !drop_ge, !take_nil by lia.
Qed.

Lemma omap_fmap_compose {A B C} (f : B → option C) (g : A → B) (l : list A) :
  omap f (g <$> l) = omap (f ∘ g) l.
Proof. induction l as [|x l IH]; [done|]. csimpl. by rewrite IH. Qed.

Lemma get_buckets_heads ciphertext key_length :
  0 < key_length →
  omap head (get_buckets ciphertext key_length)
  = take (Z.to_nat key_length) ciphertext.
Proof.
  intros HL. unfold get_buckets.
  rewrite range_0_nat, <- list_fmap_compose, omap_fmap_compose.
  trans (omap (ciphertext !!.) (seq 0 (Z.to_nat key_length)));
    [|by rewrite omap_lookup_seq, drop_0].
  apply list_omap_ext, Forall2_same_length_lookup_2; [done|].
  intros i p p' Hp Hp'. simplify_eq. simpl.
  rewrite Nat2Z.id, head_lookup, slice_step_lookup by lia.
  f_equal. lia.
Qed.

Lemma get_buckets_tails ciphertext key_length :
  0 < key_length →
  tail <$> get_buckets ciphertext key_length
  = get_buckets (drop (Z.to_nat key_length) ciphertext) key_length.
Proof.
  intros HL. unfold get_buckets. rewrite <- list_fmap_compose.
  apply list_fmap_ext. intros _ i _. simpl.
  apply list_eq. intros k.
  rewrite lookup_tail, !slice_step_lookup, lookup_drop by lia.
  f_equal. lia.
Qed.

Lemma interleave_rounds_get_buckets rounds ciphertext key_length :
  0 < key_length →
  (∀ b, b ∈ get_buckets ciphertext key_length → (length b ≤ rounds)%nat) →
  interleave_rounds rounds (get_buckets ciphertext key_length) = ciphertext.
Proof.
  intros HL. revert ciphertext.
  induction rounds as [|r IH]; intros ciphertext Hlen; simpl.
  - destruct ciphertext as [|c ct]; [done|]. exfalso.
    assert (is_Some (slice_step (c :: ct) 0 (Z.to_nat key_length) !! 0%nat)) as Hs.
    { rewrite slice_step_lookup by lia. simpl. eauto. }
    apply lookup_lt_is_Some_1 in Hs.
    assert (length (slice_step (c :: ct) 0 (Z.to_nat key_length)) ≤ 0)%nat; [|lia].
    apply Hlen, list_elem_of_lookup. exists 0%nat.
    rewrite get_buckets_lookup. rewrite decide_True by lia. done.
  - rewrite get_buckets_heads, get_buckets_tails by done.
    rewrite IH; [apply take_drop|].
    intros b Hb. rewrite <- get_buckets_tails in Hb by done.
    apply list_elem_of_fmap in Hb as (b' & -> & Hb').
    apply Hlen in Hb'. destruct b'; simpl in *; lia.
Qed.

Lemma interleave_get_buckets ciphertext key_length :
  0 < key_length → interleave (get_buckets ciphertext key_length) = ciphertext.
Proof.
  intros HL. apply interleave_rounds_get_buckets; [done|].
  intros b Hb. apply max_list_elem_of_le, list_elem_of_fmap. eauto.
Qed.

(** The index sets of the buckets. *)
Lemma elem_of_bucket_indices n key_length p i :
  0 < key_length → (p < Z.to_nat key_length)%nat →
  i ∈ bucket_indices n key_length p ↔ (i < n)%nat ∧ (i `mod` Z.to_nat key_length)%nat = p.
Proof.
  intros HL Hp. unfold bucket_indices. rewrite elem_of_slice_indices by lia.
  split; intros [Hi Hk]; (split; [done|]).
  - destruct Hk as [k ->]. rewrite Nat.Div0.mod_add. by apply Nat.mod_small.
  - exists (i `div` Z.to_nat key_length)%nat. subst p.
    pose proof (Nat.div_mod_eq i (Z.to_nat key_length)). lia.
Qed.

Lemma bucket_indices_NoDup n key_length p :
  0 < key_length → NoDup (bucket_indices n key_length p).
Proof.
  intros HL. unfold bucket_indices, slice_indices.
  apply NoDup_fmap_2; [|apply NoDup_seq].
  intros k1 k2 Hk. nia.
Qed.

Lemma bucket_indices_elements (ciphertext : list Z) key_length p :
  slice_step ciphertext p (Z.to_nat key_length)
  = omap (ciphertext !!.) (bucket_indices (length ciphertext) key_length p).
Proof. done. Qed.

(** C9. For a key length [L >= 1], [get_buckets] returns exactly [L]
    buckets; bucket [p] holds the ciphertext elements at the indices [p],
    [p+L], [p+2L], ... in that order; the index sets of two different
    buckets are disjoint, every index below the ciphertext length is in
    exactly one of them (and once), and interleaving the buckets by position
    gives back the ciphertext. *)
Theorem get_buckets_partition (ciphertext : list Z) (key_length : Z) :
  1 ≤ key_length →
  let L := Z.to_nat key_length in
  let N := length ciphertext in
  let buckets := get_buckets ciphertext key_length in
  length buckets = L
  ∧ (∀ p, (p < L)%nat →
       ∃ b, buckets !! p = Some b
            ∧ b = omap (ciphertext !!.) (bucket_indices N key_length p)
            ∧ ∀ k, b !! k = ciphertext !! (p + k * L)%nat)
  ∧ (∀ p q i, (p < L)%nat → (q < L)%nat → p ≠ q →
       i ∈ bucket_indices N key_length p → i ∉ bucket_indices N key_length q)
  ∧ (∀ i, (i < N)%nat →
       ∃ p, ((p < L)%nat ∧ i ∈ bucket_indices N key_length p)
            ∧ ∀ q, (q < L)%nat ∧ i ∈ bucket_indices N key_length q → q = p)
  ∧ (∀ p, NoDup (bucket_indices N key_length p))
  ∧ interleave buckets = ciphertext.
Proof.
  intros HL L N buckets.
  assert (0 < L)%nat as HLnat by (subst L; lia).
  split_and!.
  - apply get_buckets_length.
  - intros p Hp. exists (slice_step ciphertext p L). split_and!.
    + subst buckets. rewrite get_buckets_lookup. by rewrite decide_True.
    + apply bucket_indices_elements.
    + intros k. by apply slice_step_lookup.
  - intros p q i Hp Hq Hne Hi Hi'.
    apply elem_of_bucket_indices in Hi as [_ Hi]; [|lia|done].
    apply elem_of_bucket_indices in Hi' as [_ Hi']; [|lia|done].
    congruence.
  - intros i Hi. exists (i `mod` L)%nat.
    assert (i `mod` L < L)%nat as Hlt by (apply Nat.mod_upper_bound; lia).
    split.
    + split; [done|]. apply elem_of_bucket_indices; [lia|done|done].
    + intros q [Hq Hiq].
      apply elem_of_bucket_indices in Hiq as [_ Hiq]; [|lia|done]. done.
  - intros p. apply bucket_indices_NoDup. lia.
  - apply interleave_get_buckets. lia.
Qed.

Lemma get_buckets_partition_witness :
  get_buckets [0; 1; 2; 3; 4; 5; 6] 3 = [[0; 3; 6]; [1; 4]; [2; 5]]
  ∧ interleave (get_buckets [0; 1; 2; 3; 4; 5; 6] 3) = [0; 1; 2; 3; 4; 5; 6].
Proof.
  split; [reflexivity|].
  apply (get_buckets_partition [0; 1; 2; 3; 4; 5; 6] 3). lia.
Defined.

(** ** [np.roll] *)

Section roll_facts.
Context {A : Type}.
Implicit Types (a : list A) (shift : Z).

Lemma length_roll a shift : length (roll a shift) = length a.
Proof. unfold roll. rewrite length_app, length_drop, length_take. lia. Qed.

(** Entry [j] of the rolled array is entry [(j - shift) mod n] of the
    array. *)
Lemma roll_lookup a shift (j : nat) :
  (j < length a)%nat →
  roll a shift !! j = a !! Z.to_nat ((Z.of_nat j - shift) `mod` len a).
Proof.
  intros Hj. unfold roll, len. cbv zeta.
  rewrite decide_False by lia.
  set (n := length a) in *.
  pose proof (Z.mod_pos_bound shift (Z.of_nat n) ltac:(lia)) as Hoff.
  rewrite <- Zminus_mod_idemp_r.
  set (off := shift `mod` Z.of_nat n) in *.
  destruct (decide (Z.of_nat j < off)) as [Hlt|Hge].
  - rewrite lookup_app_l by (rewrite length_drop; lia).
    rewrite lookup_drop. f_equal.
    replace (Z.of_nat j - off) with ((Z.of_nat j - off + Z.of_nat n) + (-1) * Z.of_nat n) by lia.
    rewrite Z.mod_add by lia. rewrite Z.mod_small by lia. lia.
  - rewrite lookup_app_r by (rewrite length_drop; lia).
    rewrite length_drop, lookup_take_lt by lia. f_equal.
    rewrite Z.mod_small by lia. lia.
Qed.

(** Rolling back undoes rolling. *)
Lemma roll_roll_back a shift : roll (roll a shift) (- shift) = a.
Proof.
  apply list_eq. intros j.
  destruct (decide (j < length a)%nat) as [Hj|Hj].
  - rewrite roll_lookup by (by rewrite length_roll).
    unfold len. rewrite length_roll.
    pose proof (Z.mod_pos_bound (Z.of_nat j - - shift) (Z.of_nat (length a)) ltac:(lia)).
    rewrite roll_lookup by lia. f_equal. unfold len.
    rewrite Z2Nat.id by lia. rewrite Zminus_mod_idemp_l.
    replace (Z.of_nat j - - shift - shift) with (Z.of_nat j) by lia.
    rewrite Z.mod_small by lia. lia.
  - rewrite !lookup_ge_None_2; [done|lia|rewrite !length_roll; lia].
Qed.
End roll_facts.

Lemma Forall_roll {A} (P : A → Prop) (a : list A) shift :
  Forall P a → Forall P (roll a shift).
Proof. intros Ha. unfold roll. by apply Forall_app_2; [apply Forall_drop|apply Forall_take]. Qed.

Lemma roll_zip_with {A B C} (f : A → B → C) (a : list A) (b : list B) shift :
  length a = length b →
  roll (zip_with f a b) shift = zip_with f (roll a shift) (roll b shift).
Proof.
  intros Hlen. unfold roll. rewrite length_zip_with, <- Hlen, Nat.min_id.
  rewrite zip_with_app by (rewrite !length_drop; lia).
  by rewrite zip_with_take, zip_with_drop.
Qed.

(** ** Coincidence counts *)

Lemma sum_app a b : Np.sum (a ++ b) = Np.sum a + Np.sum b.
Proof. unfold Np.sum. induction a as [|x a IH]; simpl; lia. Qed.

Lemma sum_bool_roll (m : list bool) shift : sum_bool (roll m shift) = sum_bool m.
Proof.
  unfold sum_bool, roll. cbv zeta.
  generalize (length m - Z.to_nat (shift `mod` Z.of_nat
     (if decide (length m = 0)%nat then 1%nat else length m)))%nat.
  intros k. rewrite fmap_app, sum_app.
  assert (Np.sum (Z.b2z <$> m)
          = Np.sum (Z.b2z <$> take k m) + Np.sum (Z.b2z <$> drop k m)) as ->.
  { by rewrite <- sum_app, <- fmap_app, take_drop. }
  lia.
Qed.

Lemma eq_array_sym a b : eq_array a b = eq_array b a.
Proof.
  unfold eq_array. rewrite <- zip_with_flip.
  apply zip_with_ext; [|done..]. intros x y. apply Z.eqb_sym.
Qed.

Lemma length_filter_fmap {A B} (f : A → B) (P : B → Prop)
    `{!∀ y, Decision (P y)} (l : list A) :
  length (filter P (f <$> l)) = length (filter (λ x, P (f x)) l).
Proof.
  induction l as [|x l IH]; [done|]. csimpl.
  rewrite !filter_cons. case_decide; simpl; by rewrite IH.
Qed.

Lemma filter_ext_elem_of {A} (P Q : A → Prop)
    `{!∀ x, Decision (P x), !∀ x, Decision (Q x)} (l : list A) :
  (∀ x, x ∈ l → P x ↔ Q x) → filter P l = filter Q l.
Proof.
  induction l as [|x l IH]; intros HPQ; [done|].
  rewrite !filter_cons.
  rewrite IH by (intros y Hy; apply HPQ; by constructor).
  pose proof (HPQ x ltac:(constructor)).
  repeat case_decide; tauto.
Qed.

(** Summing the bool array [a == b] counts the index positions at which
    the two arrays agree. *)
Lemma sum_bool_eq_array_count (a b : list Z) :
  length a = length b →
  sum_bool (eq_array a b)
  = Z.of_nat (length (filter (λ i : nat, a !! i = b !! i) (seq 0 (length a)))).
Proof.
  revert b. induction a as [|x a IH]; intros [|y b] Hlen; simplify_eq/=; [done|].
  unfold sum_bool, eq_array in *. csimpl.
  rewrite <- fmap_S_seq, filter_cons. simpl.
  assert (length (filter (λ i : nat, (x :: a) !! i = (y :: b) !! i) (S <$> seq 0 (length a)))
          = length (filter (λ i : nat, a !! i = b !! i) (seq 0 (length a)))) as Hrest.
  { by rewrite length_filter_fmap. }
  change (Np.sum (Z.b2z (x =? y) :: (Z.b2z <$> zip_with Z.eqb a b)))
    with (Z.b2z (x =? y) + Np.sum (Z.b2z <$> zip_with Z.eqb a b)).
  rewrite IH by done.
  destruct (Z.eqb_spec x y) as [->|Hne].
  - rewrite decide_True by done. simpl length. rewrite Hrest. simpl. lia.
  - rewrite decide_False by congruence. rewrite Hrest. simpl. lia.
Qed.

(** The count the script computes for shift [s], by comparing the
    ciphertext with itself rolled by [s], is the number of positions [i]
    with [ciphertext[i] == ciphertext[(i+s) mod N]]. *)
Lemma sum_bool_roll_coincidences (ciphertext : list Z) (s : Z) :
  sum_bool (eq_array ciphertext (roll ciphertext s))
  = Z.of_nat (coincidences ciphertext s).
Proof.
  rewrite <- (sum_bool_roll _ (- s)).
  unfold eq_array. rewrite roll_zip_with by (by rewrite length_roll).
  rewrite roll_roll_back. fold (eq_array (roll ciphertext (- s)) ciphertext).
  rewrite eq_array_sym, sum_bool_eq_array_count by (by rewrite length_roll).
  unfold coincidences. do 2 f_equal.
  apply filter_ext_elem_of. intros i Hi%elem_of_seq.
  rewrite roll_lookup by lia.
  by replace (Z.of_nat i - - s) with (Z.of_nat i + s) by lia.
Qed.

(** C3. The coincidence profile has exactly [shift_max] entries, one for
    each shift [1 .. shift_max] in this order, and the entry of shift [s]
    is the number of index positions [i] in [0, N) with
    [ciphertext[i] == ciphertext[(i+s) mod N]]. *)
Theorem get_shifts_coincidences (ciphertext : list Z) (shift_max s : Z) :
  (1 ≤ length ciphertext)%nat → 1 ≤ s ≤ shift_max →
  length (get_shifts ciphertext shift_max) = Z.to_nat shift_max
  ∧ get_shifts ciphertext shift_max !! Z.to_nat (s - 1)
    = Some (Z.of_nat (coincidences ciphertext s)).
Proof.
  intros _ Hs. unfold get_shifts. split.
  - rewrite length_fmap, length_range. f_equal. lia.
  - rewrite list_lookup_fmap. unfold range.
    rewrite lookup_seqZ_lt by lia. simpl.
    rewrite sum_bool_roll_coincidences. do 3 f_equal. lia.
Qed.

Lemma get_shifts_coincidences_witness :
  length (get_shifts [0; 1; 0; 2; 0; 1] 7) = 7%nat
  ∧ get_shifts [0; 1; 0; 2; 0; 1] 7 !! 5%nat
    = Some (Z.of_nat (coincidences [0; 1; 0; 2; 0; 1] 6)).
Proof.
  apply (get_shifts_coincidences [0; 1; 0; 2; 0; 1] 7 6); simpl; lia.
Defined.

(** ** The matrix of frequency shifts *)

Section hstack_columns.
Context {A : Type}.
Implicit Types (cols : list (list A)) (n i j : nat).

Lemma length_reshape_column (v : list A) : length (reshape_column v) = length v.
Proof. unfold reshape_column. by rewrite length_fmap. Qed.

Lemma bind_reshape_column cols j :
  Forall (λ c, j < length c)%nat cols →
  (reshape_column <$> cols) ≫= (λ b, default [] (b !! j)) = omap (.!! j) cols.
Proof.
  induction 1 as [|c cols Hc _ IH]; [done|]. csimpl.
  apply lookup_lt_is_Some_2 in Hc as [x Hx].
  unfold reshape_column at 1. rewrite list_lookup_fmap, Hx. simpl.
  by rewrite IH.
Qed.

(** Row [j] of the stacked columns collects entry [j] of every column. *)
Lemma hstack_columns_row cols n j :
  Forall (λ c, length c = n) cols → cols ≠ [] → (j < n)%nat →
  hstack (reshape_column <$> cols) !! j = Some (omap (.!! j) cols).
Proof.
  intros Hlen Hne Hj. destruct cols as [|c cols]; [done|].
  rewrite <- (bind_reshape_column (c :: cols) j)
    by (eapply Forall_impl; [done|]; simpl; intros; lia).
  unfold hstack. rewrite fmap_cons, list_lookup_fmap, length_reshape_column.
  by rewrite (Forall_inv Hlen), lookup_seq_lt by done.
Qed.

Lemma hstack_columns_length cols n :
  Forall (λ c, length c = n) cols → cols ≠ [] →
  length (hstack (reshape_column <$> cols)) = n.
Proof.
  intros Hlen Hne. destruct cols as [|c cols]; [done|].
  unfold hstack. rewrite fmap_cons, length_fmap, length_seq, length_reshape_column.
  apply (Forall_inv Hlen).
Qed.

Lemma hstack_columns_entry cols n j i :
  Forall (λ c, length c = n) cols → (j < n)%nat →
  entry (hstack (reshape_column <$> cols)) j i = cols !! i ≫= (.!! j).
Proof.
  intros Hlen Hj. destruct (decide (cols = [])) as [->|Hne]; [done|].
  unfold entry. rewrite (hstack_columns_row cols n j) by done. simpl.
  apply omap_lookup_total. intros c Hc. apply lookup_lt_is_Some_2.
  rewrite Forall_forall in Hlen. rewrite (Hlen c Hc). done.
Qed.

Lemma hstack_columns_column cols n i c :
  Forall (λ c, length c = n) cols → cols !! i = Some c →
  column (hstack (reshape_column <$> cols)) i = c.
Proof.
  intros Hlen Hc.
  assert (cols ≠ []) as Hne by (intros ->; done).
  assert (length c = n) as Hn.
  { rewrite Forall_forall in Hlen. apply Hlen. by eapply list_elem_of_lookup_2. }
  apply list_eq. intros j. unfold column.
  pose proof (hstack_columns_length cols n Hlen Hne) as Hrows.
  rewrite omap_lookup_total.
  - destruct (decide (j < n)%nat) as [Hj|Hj].
    + rewrite (hstack_columns_row cols n j) by done. simpl.
      rewrite omap_lookup_total.
      * by rewrite Hc.
      * intros c' Hc'. apply lookup_lt_is_Some_2.
        rewrite Forall_forall in Hlen. by rewrite (Hlen c' Hc').
    + rewrite !lookup_ge_None_2; [done|lia..].
  - intros row [k Hrow]%list_elem_of_lookup.
    assert (k < n)%nat as Hk by (apply lookup_lt_Some in Hrow; lia).
    rewrite (hstack_columns_row cols n k) in Hrow by done. simplify_eq.
    rewrite omap_lookup_total.
    + rewrite Hc. simpl. apply lookup_lt_is_Some_2. lia.
    + intros c' Hc'. apply lookup_lt_is_Some_2.
      rewrite Forall_forall in Hlen. by rewrite (Hlen c' Hc').
Qed.
End hstack_columns.

Lemma length_alpha_freqs : length alpha_freqs = 26%nat.
Proof. done. Qed.

Lemma freq_shifts_columns :
  freq_shifts = hstack (reshape_column <$> (roll alpha_freqs <$> range 0 26)).
Proof. unfold freq_shifts. by rewrite <- list_fmap_compose. Qed.

Lemma rolled_alpha_freqs_lengths :
  Forall (λ c : list npfloat, length c = 26%nat) (roll alpha_freqs <$> range 0 26).
Proof.
  apply Forall_fmap, Forall_forall. intros i _. simpl.
  by rewrite length_roll.
Qed.

Lemma rolled_alpha_freqs_lookup (i : nat) :
  (i < 26)%nat →
  (roll alpha_freqs <$> range 0 26) !! i = Some (roll alpha_freqs (Z.of_nat i)).
Proof.
  intros Hi. rewrite list_lookup_fmap. unfold range.
  rewrite lookup_seqZ_lt by lia. done.
Qed.

Lemma freq_shifts_shape :
  length freq_shifts = 26%nat ∧ Forall (λ row, length row = 26%nat) freq_shifts.
Proof.
  pose proof rolled_alpha_freqs_lengths as Hcols.
  split.
  - rewrite freq_shifts_columns. by apply hstack_columns_length.
  - rewrite freq_shifts_columns. apply Forall_lookup_2. intros j row Hrow.
    assert (j < 26)%nat as Hj.
    { apply lookup_lt_Some in Hrow.
      by rewrite (hstack_columns_length _ 26) in Hrow. }
    rewrite (hstack_columns_row _ 26) in Hrow by done. simplify_eq.
    rewrite length_omap_total; [by rewrite length_fmap, length_range|].
    intros c Hc. rewrite Forall_forall in Hcols. apply lookup_lt_is_Some_2.
    by rewrite (Hcols c Hc).
Qed.

(** C5. Column [i] of the matrix of frequency shifts is the reference
    distribution rolled (rotated right) by [i]: the entry at row [j],
    column [i] is the reference distribution at index [(j - i) mod 26], and
    rolling column [i] back by [i] gives the reference distribution. *)
Theorem freq_shifts_column_rolled (i j : nat) :
  (i < 26)%nat → (j < 26)%nat →
  column freq_shifts i = roll alpha_freqs (Z.of_nat i)
  ∧ entry freq_shifts j i
    = alpha_freqs !! Z.to_nat ((Z.of_nat j - Z.of_nat i) `mod` 26)
  ∧ roll (column freq_shifts i) (- Z.of_nat i) = alpha_freqs.
Proof.
  intros Hi Hj.
  assert (column freq_shifts i = roll alpha_freqs (Z.of_nat i)) as Hcol.
  { rewrite freq_shifts_columns.
    apply (hstack_columns_column _ 26); [apply rolled_alpha_freqs_lengths|].
    by apply rolled_alpha_freqs_lookup. }
  split_and!; [done| |].
  - rewrite freq_shifts_columns.
    rewrite (hstack_columns_entry _ 26) by (apply rolled_alpha_freqs_lengths || done).
    rewrite rolled_alpha_freqs_lookup by done. simpl.
    rewrite roll_lookup by (rewrite length_alpha_freqs; lia). done.
  - rewrite Hcol. apply roll_roll_back.
Qed.

Lemma freq_shifts_column_rolled_witness :
  column freq_shifts 3 = roll alpha_freqs 3
  ∧ entry freq_shifts 1 3 = alpha_freqs !! 24%nat
  ∧ roll (column freq_shifts 3) (- 3) = alpha_freqs.
Proof. apply (freq_shifts_column_rolled 3 1); lia. Defined.

(** ** float64 comparison and [np.argmax] *)

Lemma is_fin_not_nan x : is_fin x → not_nan x.
Proof. by intros [q ->]. Qed.

Lemma fle_refl x : not_nan x → fle x x = true.
Proof.
  destruct x as [q|[]|]; intros Hx; try done.
  simpl. apply Qle_bool_iff. apply Qle_refl.
Qed.

Lemma fle_trans x y z : fle x y = true → fle y z = true → fle x z = true.
Proof.
  destruct x as [a|[]|], y as [b|[]|], z as [c|[]|]; simpl; try done.
  rewrite !Qle_bool_iff. apply Qle_trans.
Qed.

Lemma fle_total x y : not_nan x → not_nan y → fle x y = true ∨ fle y x = true.
Proof.
  destruct x as [a|[]|], y as [b|[]|]; simpl; intros Hx Hy; try done; auto.
  rewrite !Qle_bool_iff.
  destruct (Qlt_le_dec a b) as [Hlt|Hle]; [left; by apply Qlt_le_weak|by right].
Qed.

Lemma fle_false_le x y : not_nan x → not_nan y → fle x y = false → fle y x = true.
Proof. intros Hx Hy Hxy. destruct (fle_total x y Hx Hy); congruence. Qed.

(** The scan of [np.argmax]: started with the running maximum [mp] found at
    [max_ind], on the elements [rest] that sit at the indices [i], [i+1],
    ..., it either keeps [max_ind], and then nothing in [rest] exceeds
    [mp], or it ends on the first element of [rest] that is maximal, and
    that element exceeds [mp]. *)
Lemma argmax_scan_spec rest : ∀ mp max_ind i,
  not_nan mp → Forall not_nan rest →
  let k := argmax_scan mp max_ind i rest in
  (k = max_ind ∧ ∀ x, x ∈ rest → fle x mp = true)
  ∨ (∃ d m, k = (i + d)%nat ∧ rest !! d = Some m
            ∧ fle m mp = false
            ∧ (∀ x, x ∈ rest → fle x m = true)
            ∧ (∀ j x, (j < d)%nat → rest !! j = Some x → fle m x = false)).
Proof.
  induction rest as [|x rest IH]; intros mp max_ind i Hmp Hrest; simpl.
  { left. split; [done|]. by intros x ?%elem_of_nil. }
  apply Forall_cons in Hrest as [Hx Hrest].
  destruct (fle x mp) eqn:Hxmp.
  - destruct (IH mp max_ind (S i) Hmp Hrest) as [[-> Hall]|(d & m & -> & Hm & Hgt & Hall & Hfirst)].
    + left. split; [done|]. intros y [->|Hy]%elem_of_cons; auto.
    + right. exists (S d), m.
      assert (not_nan m) as Hnm.
      { eapply (Forall_lookup_1 _ _ _ _ Hrest Hm). }
      assert (fle m x = false) as Hmx.
      { destruct (fle m x) eqn:E; [|done].
        by rewrite (fle_trans m x mp E Hxmp) in Hgt. }
      split_and!; [lia|done|done| |].
      * intros y [->|Hy]%elem_of_cons; [by apply fle_false_le|auto].
      * intros [|j] y Hj Hy; simplify_eq/=; [done|]. apply (Hfirst j); [lia|done].
  - assert (is_nan x = false) as -> by done.
    destruct (IH x i (S i) Hx Hrest) as [[-> Hall]|(d & m & -> & Hm & Hgt & Hall & Hfirst)].
    + right. exists 0%nat, x. split_and!; [lia|done|done| |].
      * intros y [->|Hy]%elem_of_cons; [by apply fle_refl|auto].
      * intros j y Hj. lia.
    + right. exists (S d), m.
      assert (not_nan m) as Hnm.
      { eapply (Forall_lookup_1 _ _ _ _ Hrest Hm). }
      split_and!; [lia|done| | |].
      * destruct (fle m mp) eqn:E; [|done].
        pose proof (fle_false_le x mp Hx Hmp Hxmp) as Hmpx.
        by rewrite (fle_trans m mp x E Hmpx) in Hgt.
      * intros y [->|Hy]%elem_of_cons; [by apply fle_false_le|auto].
      * intros [|j] y Hj Hy; simplify_eq/=; [done|]. apply (Hfirst j); [lia|done].
Qed.

(** [np.argmax] of an array without NaN that is not empty raises nothing
    and returns the smallest index among those of the maximum: no entry
    exceeds the entry at the index returned, and every entry before it is
    strictly smaller. *)
Lemma argmax_first_maximum (r : list npfloat) :
  r ≠ [] → Forall not_nan r →
  ∃ k m, argmax r = Ok k ∧ r !! k = Some m
         ∧ (∀ x, x ∈ r → fle x m = true)
         ∧ (∀ j x, (j < k)%nat → r !! j = Some x → fle m x = false).
Proof.
  destruct r as [|x rest]; [done|]. intros _ [Hx Hrest]%Forall_cons.
  unfold argmax. assert (is_nan x = false) as -> by done.
  destruct (argmax_scan_spec rest x 0%nat 1%nat Hx Hrest)
    as [[-> Hall]|(d & m & -> & Hm & Hgt & Hall & Hfirst)].
  - exists 0%nat, x. split_and!; [done..| |].
    + intros y [->|Hy]%elem_of_cons; [by apply fle_refl|auto].
    + intros j y Hj. lia.
  - exists (1 + d)%nat, m.
    assert (not_nan m) as Hnm.
    { eapply (Forall_lookup_1 _ _ _ _ Hrest Hm). }
    split_and!; [done..| |].
    + intros y [->|Hy]%elem_of_cons; [by apply fle_false_le|auto].
    + intros [|j] y Hj Hy; simplify_eq/=; [done|]. apply (Hfirst j); [lia|done].
Qed.

(** [np.argmax] of an array that starts with a NaN is 0. *)
Lemma argmax_nan_first rest : argmax (NaN :: rest) = Ok 0%nat.
Proof. done. Qed.

(** ** Key recovery *)

Lemma sum_select_eq_scalar (ct : list Z) (c : Z) :
  Np.sum (select ct (eq_scalar ct c)) = c * Z.of_nat (occurrences ct c).
Proof.
  unfold select, eq_scalar, occurrences.
  induction ct as [|x ct IH]; [simpl; lia|].
  csimpl. rewrite !filter_cons. simpl.
  destruct (Z.eqb_spec x c) as [->|Hne].
  - rewrite decide_True by done. rewrite decide_True by done.
    csimpl. change (Np.sum (c :: ?l)) with (c + Np.sum l). rewrite IH. lia.
  - rewrite decide_False by done. rewrite decide_False by done. apply IH.
Qed.

Lemma length_freq_row ct : length (freq_row ct) = 26%nat.
Proof. unfold freq_row. by rewrite length_fmap. Qed.

(** What the script stores as the frequency of Letter Code [c] in a bucket
    that is not empty: the sum of the elements equal to [c], that is [c]
    times the number of occurrences of [c], divided by the bucket length. *)
Lemma freq_row_lookup (ct : list Z) (c : nat) :
  ct ≠ [] → (c < 26)%nat →
  freq_row ct !! c
  = Some (Fin (inject_Z (Z.of_nat c * Z.of_nat (occurrences ct (Z.of_nat c)))
               / inject_Z (len ct))).
Proof.
  intros Hne Hc. unfold freq_row. rewrite list_lookup_fmap. unfold range.
  rewrite lookup_seqZ_lt by lia. simpl.
  rewrite sum_select_eq_scalar. unfold true_divide.
  rewrite decide_False; [done|]. unfold len. destruct ct; simpl; [done|lia].
Qed.

Lemma freq_row_fin (ct : list Z) : ct ≠ [] → Forall is_fin (freq_row ct).
Proof.
  intros Hne. unfold freq_row. apply Forall_fmap, Forall_forall. intros c _. simpl.
  unfold true_divide. rewrite decide_False; [by eexists|].
  unfold len. destruct ct; simpl; [done|lia].
Qed.

(** The row of an empty bucket: 26 times [0/0]. *)
Lemma freq_row_empty : freq_row [] = replicate 26 NaN.
Proof. reflexivity. Qed.

(** Put otherwise: the script's entry for [c] is [c] times the empirical
    frequency of [c]. *)
Lemma freq_row_scaled_frequency (ct : list Z) (c : nat) :
  ct ≠ [] → (c < 26)%nat →
  ∃ q, freq_row ct !! c = Some (Fin q)
       ∧ (q == inject_Z (Z.of_nat c) * empirical_frequency ct (Z.of_nat c))%Q.
Proof.
  intros Hne Hc. eexists. split; [by apply freq_row_lookup|].
  unfold empirical_frequency, Qdiv. rewrite inject_Z_mult. ring.
Qed.

(** C1 (where the script departs from it). On the bucket of the
    ciphertext "CCA" with key length 1, codes [2; 2; 0], the script's vector
    has 4/3 at entry 2, where two occurrences among three elements make 2/3,
    and 0 at entry 0, where one occurrence among three makes 1/3; its
    entries sum to 4/3, not to 1.  The script sums the Letter Codes equal to
    [c] where the occurrences of [c] are to be counted. *)
Theorem cipher_freqs_sums_codes_not_occurrences :
  get_buckets [2; 2; 0] 1 = [[2; 2; 0]]
  ∧ ∃ row q2 q0 total,
      cipher_freqs (get_buckets [2; 2; 0] 1) = [row]
      ∧ row !! 2%nat = Some (Fin q2)
      ∧ (q2 == 4 # 3)%Q ∧ (empirical_frequency [2; 2; 0]%Z 2%Z == 2 # 3)%Q
      ∧ row !! 0%nat = Some (Fin q0)
      ∧ (q0 == 0)%Q ∧ (empirical_frequency [2; 2; 0]%Z 0%Z == 1 # 3)%Q
      ∧ fsum row = Fin total
      ∧ (total == 4 # 3)%Q ∧ ¬ (total == 1)%Q.
Proof.
  split; [reflexivity|].
  eexists _, _, _, _. split_and!; try (vm_compute; reflexivity).
  vm_compute. discriminate.
Qed.

Lemma freq_shifts_fin : Forall (Forall is_fin) freq_shifts.
Proof.
  rewrite freq_shifts_columns.
  apply Forall_lookup_2. intros j row Hrow.
  assert (j < 26)%nat as Hj.
  { apply lookup_lt_Some in Hrow.
    rewrite (hstack_columns_length _ 26) in Hrow; [done| |done].
    apply rolled_alpha_freqs_lengths. }
  rewrite (hstack_columns_row _ 26) in Hrow;
    [|apply rolled_alpha_freqs_lengths|done|done].
  simplify_eq. apply Forall_forall. intros x (c & Hc & Hx)%list_elem_of_omap.
  apply list_elem_of_fmap in Hc as (i & -> & _).
  apply list_elem_of_lookup_2 in Hx. revert x Hx. apply Forall_forall.
  apply Forall_roll, Forall_fmap, Forall_forall. intros n _. by eexists.
Qed.

Lemma column_fin (m : list (list npfloat)) i :
  Forall (Forall is_fin) m → Forall is_fin (column m i).
Proof.
  intros Hm. apply Forall_forall. intros x (row & Hrow & Hx)%list_elem_of_omap.
  rewrite Forall_forall in Hm. specialize (Hm row Hrow).
  rewrite Forall_forall in Hm. apply Hm. by eapply list_elem_of_lookup_2.
Qed.

Lemma fsum_fin (a : list npfloat) : Forall is_fin a → is_fin (fsum a).
Proof.
  induction 1 as [|x a [q ->] _ [q' IH]]; [by eexists|].
  unfold fsum in *. simpl. rewrite IH. by eexists.
Qed.

Lemma vdot_fin (u v : list npfloat) :
  Forall is_fin u → Forall is_fin v → is_fin (vdot u v).
Proof.
  intros Hu Hv. apply fsum_fin. revert v Hv.
  induction Hu as [|x u [q ->] _ IH]; intros v Hv; [constructor|].
  destruct Hv as [|y v [q' ->] Hv]; [constructor|].
  simpl. constructor; [by eexists|by apply IH].
Qed.

Lemma length_score_row ct : length (score_row ct) = 26%nat.
Proof. unfold score_row. by rewrite length_fmap. Qed.

Lemma score_row_fin (ct : list Z) : ct ≠ [] → Forall is_fin (score_row ct).
Proof.
  intros Hne. unfold score_row. apply Forall_fmap, Forall_forall. intros i _.
  cbv beta. unfold compose.
  apply vdot_fin; [by apply freq_row_fin|apply column_fin, freq_shifts_fin].
Qed.

(** The scores of an empty bucket are all NaN. *)
Lemma score_row_empty : score_row [] = replicate 26 NaN.
Proof. vm_compute. reflexivity. Qed.

(** [cipher_freqs.dot(freq_shifts)] raises for an empty list of buckets
    only. *)
Lemma scores_Ok (buckets : list (list Z)) :
  buckets ≠ [] → scores buckets = Ok (score_row <$> buckets).
Proof.
  intros Hne. unfold scores, scores_with, dot.
  rewrite bool_decide_eq_true_2.
  - f_equal. unfold cipher_freqs. rewrite <- list_fmap_compose.
    apply list_fmap_ext. intros _ ct _. unfold compose, score_row.
    assert (length (default [] (head freq_shifts)) = 26%nat) as -> by reflexivity.
    reflexivity.
  - split.
    + unfold cipher_freqs. by destruct buckets.
    + unfold cipher_freqs. apply Forall_fmap, Forall_forall. intros ct _.
      unfold compose. rewrite length_freq_row.
      by destruct freq_shifts_shape as [-> _].
Qed.

Lemma scores_nil : scores [] = Raise ValueError.
Proof. reflexivity. Qed.

Lemma mapM_Ok_pointwise {A B} (f : A → result B) (l : list A) :
  (∀ x, x ∈ l → ∃ y, f x = Ok y) →
  ∃ out, mapM f l = Ok out ∧ length out = length l
         ∧ ∀ i x, l !! i = Some x → ∃ y, f x = Ok y ∧ out !! i = Some y.
Proof.
  induction l as [|x l IH]; intros Hf.
  { exists []. split_and!; [done..|]. by intros i x ?. }
  destruct (Hf x) as [y Hy]; [by constructor|].
  destruct IH as (out & Hout & Hlen & Hpt).
  { intros z Hz. apply Hf. by constructor. }
  exists (y :: out). split_and!.
  - simpl. rewrite Hy. simpl. by rewrite Hout.
  - simpl. by rewrite Hlen.
  - intros [|i] z Hz; simplify_eq/=; eauto.
Qed.

(** [get_key] on a list of buckets that is not empty raises nothing,
    whatever the buckets are: it returns one shift per bucket, the
    [np.argmax] of the bucket's row of scores. *)
Lemma get_key_Ok (buckets : list (list Z)) :
  buckets ≠ [] →
  ∃ key, get_key buckets = Ok key ∧ length key = length buckets
         ∧ ∀ p ct, buckets !! p = Some ct →
             ∃ k, argmax (score_row ct) = Ok k ∧ key !! p = Some (Z.of_nat k).
Proof.
  intros Hne. unfold get_key, get_key_with. fold (scores buckets). rewrite scores_Ok by done.
  destruct (mapM_Ok_pointwise (λ r, i ← argmax r; Ok (Z.of_nat i)) (score_row <$> buckets))
    as (key & Hkey & Hlen & Hpt).
  { intros r (ct & -> & _)%list_elem_of_fmap.
    pose proof (length_score_row ct) as Hl.
    destruct (score_row ct) as [|x rest]; [done|]. simpl. eauto. }
  exists key. split_and!; [done|by rewrite Hlen, length_fmap|].
  intros p ct Hct.
  destruct (Hpt p (score_row ct)) as (z & Hz & Hp).
  { by rewrite list_lookup_fmap, Hct. }
  destruct (argmax (score_row ct)) as [k|e] eqn:Hk.
  - exists k. split; [done|]. by injection Hz as <-.
  - discriminate Hz.
Qed.

(** *** The scores, whichever kernel computes them *)

Lemma nonneg_finite_is_fin x : nonneg_finite x → is_fin x.
Proof. intros (q & -> & _). by eexists. Qed.

(** The reference frequencies are positive decimals. *)
Lemma alpha_freqs_nonneg : Forall nonneg_finite alpha_freqs.
Proof.
  unfold alpha_freqs. apply Forall_fmap.
  eapply (Forall_impl (λ n : Z, 0 ≤ n)); [repeat constructor; lia|].
  intros n Hn. exists (n # 100000)%Q. split; [done|].
  unfold Qle. simpl. lia.
Qed.

Lemma freq_shifts_nonneg : Forall (Forall nonneg_finite) freq_shifts.
Proof.
  rewrite freq_shifts_columns.
  apply Forall_lookup_2. intros j row Hrow.
  assert (j < 26)%nat as Hj.
  { apply lookup_lt_Some in Hrow.
    rewrite (hstack_columns_length _ 26) in Hrow; [done| |done].
    apply rolled_alpha_freqs_lengths. }
  rewrite (hstack_columns_row _ 26) in Hrow;
    [|apply rolled_alpha_freqs_lengths|done|done].
  simplify_eq. apply Forall_forall. intros x (c & Hc & Hx)%list_elem_of_omap.
  apply list_elem_of_fmap in Hc as (i & -> & _).
  apply list_elem_of_lookup_2 in Hx. revert x Hx. apply Forall_forall.
  apply Forall_roll, alpha_freqs_nonneg.
Qed.

(** The row of a bucket that is not empty: sums of Letter Codes in
    [0, 25], divided by the bucket length. *)
Lemma freq_row_nonneg (ct : list Z) : ct ≠ [] → Forall nonneg_finite (freq_row ct).
Proof.
  intros Hne. unfold freq_row. apply Forall_fmap, Forall_forall.
  intros c Hc. unfold range in Hc. apply elem_of_seqZ in Hc.
  unfold compose. rewrite sum_select_eq_scalar. unfold true_divide.
  assert (0 < len ct) as Hlen by (unfold len; destruct ct; simpl; [done|lia]).
  rewrite decide_False by lia. eexists. split; [done|].
  apply Qle_shift_div_l.
  - change 0%Q with (inject_Z 0). rewrite <- Zlt_Qlt. lia.
  - rewrite Qmult_0_l. change 0%Q with (inject_Z 0). rewrite <- Zle_Qle. lia.
Qed.

Lemma cipher_freqs_lookup (buckets : list (list Z)) (p : nat) (ct : list Z) :
  buckets !! p = Some ct → cipher_freqs buckets !! p = Some (freq_row ct).
Proof. intros Hp. unfold cipher_freqs. by rewrite list_lookup_fmap, Hp. Qed.

Lemma cipher_freqs_shape (buckets : list (list Z)) :
  shape (cipher_freqs buckets) (length buckets) 26.
Proof.
  unfold shape, cipher_freqs. split; [by rewrite length_fmap|].
  apply Forall_fmap, Forall_forall. intros ct _. unfold compose.
  apply length_freq_row.
Qed.

(** The product of the script has the shapes (L, 26) and (26, 26): it
    raises nothing and gives a row of 26 scores for every bucket. *)
Lemma scores_with_Ok product (buckets : list (list Z)) :
  float_product product → buckets ≠ [] →
  ∃ R, scores_with product buckets = Ok R ∧ shape R (length buckets) 26.
Proof.
  intros Hprod Hne. unfold scores_with.
  apply (product_shape product Hprod _ _ (length buckets) 26%nat 26%nat).
  - destruct buckets; [done|simpl; lia].
  - lia.
  - apply cipher_freqs_shape.
  - apply freq_shifts_shape.
Qed.

(** [get_key] then raises nothing either, and the shift of a bucket is the
    [np.argmax] of its row of [R]. *)
Lemma get_key_with_Ok product (buckets : list (list Z)) :
  float_product product → buckets ≠ [] →
  ∃ R key, scores_with product buckets = Ok R
           ∧ get_key_with product buckets = Ok key
           ∧ length R = length buckets ∧ length key = length buckets
           ∧ ∀ p r, R !! p = Some r →
               length r = 26%nat
               ∧ ∃ k, argmax r = Ok k ∧ key !! p = Some (Z.of_nat k).
Proof.
  intros Hprod Hne.
  destruct (scores_with_Ok product buckets Hprod Hne) as (R & HR & Hlen & Hrows).
  destruct (mapM_Ok_pointwise (λ r, i ← argmax r; Ok (Z.of_nat i)) R)
    as (key & Hkey & Hklen & Hpt).
  { intros r Hr. rewrite Forall_forall in Hrows. specialize (Hrows r Hr).
    destruct r as [|x rest]; [done|]. simpl. eauto. }
  exists R, key. split_and!; [done| |done|congruence|].
  - unfold get_key_with. by rewrite HR.
  - intros p r Hr. split.
    + rewrite Forall_forall in Hrows. apply Hrows. by eapply list_elem_of_lookup_2.
    + destruct (Hpt p r Hr) as (z & Hz & Hp).
      destruct (argmax r) as [k|e] eqn:Hk.
      * exists k. split; [done|]. by injection Hz as <-.
      * discriminate Hz.
Qed.

(** The exact product is one of the products of [float_product]. *)
Lemma dot_float_product : float_product dot.
Proof.
  split.
  - intros a b m n k Hm Hn [Ham Han] [Hbn Hbk]. unfold dot.
    rewrite bool_decide_eq_true_2.
    + eexists. split; [done|]. split; [by rewrite length_fmap|].
      apply Forall_fmap, Forall_forall. intros row _. unfold compose.
      rewrite length_fmap, length_seq.
      destruct b as [|col b]; [simpl in Hbn; lia|].
      by apply Forall_cons in Hbk as [Hcol _].
    + split; [intros ->; simpl in Ham; lia|]. by rewrite Hbn.
  - intros a b m n k R p row r _ _ _ _ HR Hrow Hr Hnonneg Hb. unfold dot in HR.
    case_bool_decide; [|discriminate HR]. injection HR as <-.
    rewrite list_lookup_fmap, Hrow in Hr. injection Hr as <-.
    apply Forall_fmap, Forall_forall. intros i _. unfold compose.
    apply is_fin_not_nan, vdot_fin.
    + eapply Forall_impl; [exact Hnonneg|]. apply nonneg_finite_is_fin.
    + apply column_fin. eapply Forall_impl; [exact Hb|]. intros col Hcol.
      eapply Forall_impl; [exact Hcol|]. apply nonneg_finite_is_fin.
Qed.

Lemma get_key_with_dot (buckets : list (list Z)) : get_key_with dot buckets = get_key buckets.
Proof. reflexivity. Qed.

(** C8. For a bucket that is not empty, the shift [get_key] recovers is an
    index of the maximum of the bucket's 26 scores, and the smallest such
    index: no score exceeds the score at the recovered index, and every
    score at a smaller index is strictly smaller.  The scores are those the
    script computes, row [p] of [R = cipher_freqs.dot(freq_shifts)],
    whichever kernel computes the product and however it rounds: two scores
    that would be equal without rounding tie only if they are rounded to the
    same float64. *)
Theorem get_key_first_maximum product (buckets : list (list Z)) (p : nat) (ct : list Z) :
  float_product product →
  buckets !! p = Some ct → ct ≠ [] →
  ∃ key R r k m,
    get_key_with product buckets = Ok key ∧ key !! p = Some (Z.of_nat k)
    ∧ scores_with product buckets = Ok R ∧ R !! p = Some r ∧ length r = 26%nat
    ∧ r !! k = Some m
    ∧ (∀ j x, r !! j = Some x → fle x m = true)
    ∧ (∀ j x, (j < k)%nat → r !! j = Some x → fle m x = false).
Proof.
  intros Hprod Hp Hct.
  assert (buckets ≠ []) as Hne by (intros ->; done).
  destruct (get_key_with_Ok product buckets Hprod Hne)
    as (R & key & HR & Hkey & HlenR & _ & Hpt).
  destruct (lookup_lt_is_Some_2 R p) as [r Hr].
  { rewrite HlenR. by eapply lookup_lt_Some. }
  destruct (Hpt p r Hr) as (Hlen & k & Hk & Hkp).
  assert (Forall not_nan r) as Hnan.
  { apply (product_not_nan product Hprod (cipher_freqs buckets) freq_shifts
             (length buckets) 26%nat 26%nat R p (freq_row ct) r).
    - destruct buckets; [done|simpl; lia].
    - lia.
    - apply cipher_freqs_shape.
    - apply freq_shifts_shape.
    - exact HR.
    - by apply cipher_freqs_lookup.
    - done.
    - by apply freq_row_nonneg.
    - apply freq_shifts_nonneg. }
  destruct (argmax_first_maximum r) as (k' & m & Hk' & Hm & Hmax & Hfirst);
    [by intros ->|done|].
  assert (k' = k) as -> by congruence.
  exists key, R, r, k, m. split_and!; [done..| |done].
  intros j x Hx. apply Hmax. by eapply list_elem_of_lookup_2.
Qed.

(** The bucket of the witness holds seven Q and ten T.  Without rounding
    its two largest scores, at the shifts 12 and 15, are equal. *)
Lemma get_key_first_maximum_witness :
  ∃ key R r k m,
    get_key_with dot
      [[]; [16; 19; 19; 16; 19; 16; 19; 19; 16; 19; 16; 19; 19; 16; 19; 16; 19]]
    = Ok key
    ∧ key !! 1%nat = Some (Z.of_nat k)
    ∧ scores_with dot
        [[]; [16; 19; 19; 16; 19; 16; 19; 19; 16; 19; 16; 19; 19; 16; 19; 16; 19]]
      = Ok R
    ∧ R !! 1%nat = Some r ∧ length r = 26%nat
    ∧ r !! k = Some m
    ∧ (∀ j x, r !! j = Some x → fle x m = true)
    ∧ (∀ j x, (j < k)%nat → r !! j = Some x → fle m x = false).
Proof.
  apply (get_key_first_maximum dot
           [[]; [16; 19; 19; 16; 19; 16; 19; 19; 16; 19; 16; 19; 19; 16; 19; 16; 19]] 1
           [16; 19; 19; 16; 19; 16; 19; 19; 16; 19; 16; 19; 19; 16; 19; 16; 19]).
  - apply dot_float_product.
  - reflexivity.
  - discriminate.
Defined.

(** With the exact product the scores of that bucket at the shifts 12 and 15
    are equal and no score is larger; the shift recovered is the smaller
    index, 12.  A kernel that rounds the two scores to different float64
    values breaks the tie, and the shift recovered is then the index of the
    larger rounded score. *)
Lemma get_key_exact_tie_smallest_index :
  get_key_with dot
    [[16; 19; 19; 16; 19; 16; 19; 19; 16; 19; 16; 19; 19; 16; 19; 16; 19]]
  = Ok [12]
  ∧ ∃ x y,
      score_row [16; 19; 19; 16; 19; 16; 19; 19; 16; 19; 16; 19; 19; 16; 19; 16; 19]
        !! 12%nat = Some x
      ∧ score_row [16; 19; 19; 16; 19; 16; 19; 19; 16; 19; 16; 19; 19; 16; 19; 16; 19]
          !! 15%nat = Some y
      ∧ fle x y = true ∧ fle y x = true
      ∧ Forall (λ z, fle z x = true)
          (score_row [16; 19; 19; 16; 19; 16; 19; 19; 16; 19; 16; 19; 19; 16; 19; 16; 19]).
Proof.
  split; [vm_compute; reflexivity|].
  eexists _, _. split_and!; [vm_compute; reflexivity..|].
  apply Forall_forall. intros z Hz. vm_compute in Hz.
  repeat (apply elem_of_cons in Hz as [->|Hz]; [by vm_compute|]).
  by apply elem_of_nil in Hz.
Qed.

(** A key length above the ciphertext length leaves the buckets from the
    ciphertext length on empty. *)
Lemma get_buckets_beyond_length (ciphertext : list Z) (key_length : Z) (p : nat) :
  (length ciphertext ≤ p)%nat → (p < Z.to_nat key_length)%nat →
  get_buckets ciphertext key_length !! p = Some [].
Proof.
  intros Hlen Hp. rewrite get_buckets_lookup, decide_True by done. f_equal.
  apply list_eq. intros k. rewrite slice_step_lookup by lia.
  rewrite lookup_ge_None_2 by lia. done.
Qed.

(** All 26 scores of a bucket of As are equal, and the shift recovered is
    the smallest index, 0. *)
Lemma get_key_all_scores_tie :
  get_key [[0; 0; 0]] = Ok [0]
  ∧ Forall (λ x, fle x (Fin 0) = true ∧ fle (Fin 0) x = true) (score_row [0; 0; 0]).
Proof.
  split; [vm_compute; reflexivity|].
  apply Forall_forall. intros x Hx. vm_compute in Hx.
  repeat (apply elem_of_cons in Hx as [->|Hx]; [by vm_compute|]).
  by apply elem_of_nil in Hx.
Qed.

(** The shift recovered for an empty bucket is 0: its scores are NaN, and
    [np.argmax] stops on the first of them. *)
Lemma get_key_shift_of_empty (buckets : list (list Z)) :
  buckets ≠ [] →
  ∃ key, get_key buckets = Ok key ∧ length key = length buckets
         ∧ ∀ p, buckets !! p = Some [] → key !! p = Some 0.
Proof.
  intros Hne. destruct (get_key_Ok buckets Hne) as (key & Hkey & Hlen & Hpt).
  exists key. split_and!; [done..|]. intros p Hp.
  destruct (Hpt p [] Hp) as (k & Hk & ->).
  rewrite score_row_empty in Hk.
  change (replicate 26 NaN) with (NaN :: replicate 25 NaN) in Hk.
  rewrite argmax_nan_first in Hk. by injection Hk as <-.
Qed.

(** C6 (as the script has it). Key recovery raises no error on a list of
    buckets that is not empty, also when some bucket is empty, as happens
    when the key length exceeds the ciphertext length: the frequencies of an
    empty bucket are [0/0], NaN, so are its scores, and the shift recovered
    for it is 0. *)
Theorem get_key_empty_bucket_no_error (buckets : list (list Z)) :
  buckets ≠ [] →
  ∃ key, get_key buckets = Ok key ∧ length key = length buckets
         ∧ ∀ p, buckets !! p = Some [] →
             cipher_freqs buckets !! p = Some (replicate 26 NaN)
             ∧ key !! p = Some 0.
Proof.
  intros Hne. destruct (get_key_shift_of_empty buckets Hne) as (key & Hkey & Hlen & Hzero).
  exists key. split_and!; [done..|]. intros p Hp. split; [|by apply Hzero].
  unfold cipher_freqs. rewrite list_lookup_fmap, Hp. simpl.
  by rewrite freq_row_empty.
Qed.

Lemma get_key_empty_bucket_no_error_witness :
  ∃ key, get_key (get_buckets [2] 2) = Ok key
         ∧ length key = length (get_buckets [2] 2)
         ∧ ∀ p, get_buckets [2] 2 !! p = Some [] →
             cipher_freqs (get_buckets [2] 2) !! p = Some (replicate 26 NaN)
             ∧ key !! p = Some 0.
Proof. apply (get_key_empty_bucket_no_error (get_buckets [2] 2)). discriminate. Defined.

(** Against C6 as worded: the ciphertext "C" with key length 2 gives one
    empty bucket, and key recovery returns a key for it rather than
    raising. *)
Lemma get_key_empty_bucket_returns :
  get_buckets [2] 2 = [[2]; []]
  ∧ get_key (get_buckets [2] 2) = Ok [24; 0]
  ∧ ¬ ∃ e, get_key (get_buckets [2] 2) = Raise e.
Proof.
  assert (get_key (get_buckets [2] 2) = Ok [24; 0]) as Hk by (vm_compute; reflexivity).
  split_and!; [reflexivity|done|]. intros [e He]. by rewrite Hk in He.
Qed.

(** With a key length above the ciphertext length the script goes on to a
    key whose shifts from the ciphertext length on are 0. *)
Lemma get_key_key_length_exceeds (ciphertext : list Z) (key_length : Z) :
  len ciphertext < key_length →
  ∃ key, get_key (get_buckets ciphertext key_length) = Ok key
         ∧ len key = key_length
         ∧ ∀ p : nat, (length ciphertext ≤ p)%nat → Z.of_nat p < key_length →
             key !! p = Some 0.
Proof.
  unfold len. intros HL.
  destruct (get_key_shift_of_empty (get_buckets ciphertext key_length))
    as (key & Hkey & Hlen & Hzero).
  { intros Hnil. pose proof (get_buckets_length ciphertext key_length) as Hl.
    rewrite Hnil in Hl. simpl in Hl. lia. }
  rewrite get_buckets_length in Hlen.
  exists key. split_and!; [done|lia|].
  intros p Hp HpL. apply Hzero, get_buckets_beyond_length; lia.
Qed.

(** ** Normalisation *)

(** C7 (as the script has it). Normalisation removes the line feeds, maps
    every remaining character [c] to [ord(c) - ord('A')] and never fails;
    the codes it produces all lie in [0, 25] exactly when every remaining
    character is one of the capitals A..Z. *)
Theorem get_cipher_text_total (contents : string) :
  let remaining := filter (λ c, c ≠ newline) (list_ascii_of_string contents) in
  (newline ∉ remaining)
  ∧ get_cipher_text contents = Ok ((λ c, ord c - ord "A") <$> remaining)
  ∧ (Forall letter_code ((λ c, ord c - ord "A") <$> remaining)
     ↔ Forall (λ c, ord "A" ≤ ord c ≤ ord "Z") remaining).
Proof.
  intros remaining. split_and!.
  - intros [Hne _]%list_elem_of_filter. done.
  - unfold get_cipher_text. fold remaining. by rewrite <- list_fmap_compose.
  - rewrite Forall_fmap. apply Forall_iff. intros c. unfold letter_code, compose.
    change (ord "A") with 65. change (ord "Z") with 90. lia.
Qed.

(** Against C7 as worded: a lower-case letter and a digit go through
    normalisation without an error and come out as codes outside [0, 25]. *)
Lemma get_cipher_text_accepts_lowercase_and_digit :
  get_cipher_text "a1" = Ok [32; -16]
  ∧ ¬ letter_code 32 ∧ ¬ letter_code (-16)
  ∧ ¬ ∃ e, get_cipher_text "a1" = Raise e.
Proof.
  split_and!; [reflexivity|unfold letter_code; lia..|].
  intros [e He]. discriminate He.
Qed.

(** ** [np.argsort] and the printed coincidence profile *)

Lemma StronglySorted_lookup {A} (R : relation A) (l : list A) p q x y :
  StronglySorted R l → (p < q)%nat → l !! p = Some x → l !! q = Some y → R x y.
Proof.
  intros Hl. revert p q. induction Hl as [|z l Hl IH Hz]; intros p q Hpq Hp Hq; [done|].
  destruct q as [|q]; [lia|]. destruct p as [|p]; simplify_eq/=.
  - rewrite Forall_forall in Hz. apply Hz. by eapply list_elem_of_lookup_2.
  - apply (IH p q); [lia|done..].
Qed.

Lemma StronglySorted_impl {A} (R R' : relation A) (l : list A) :
  (∀ x y, R x y → R' x y) → StronglySorted R l → StronglySorted R' l.
Proof.
  intros HR. induction 1 as [|x l Hl IH Hx]; constructor; [done|].
  eapply Forall_impl; [exact Hx|]. apply HR.
Qed.

Section argsort_facts.
Variable v : list Z.

Lemma argsort_insert_Permutation vi sorted :
  argsort_insert v vi sorted ≡ₚ vi :: sorted.
Proof.
  induction sorted as [|pk rest IH]; [done|]. simpl.
  case_bool_decide; [done|]. rewrite IH. apply Permutation_swap.
Qed.

(** Inserting an index larger than those already there keeps the order. *)
Lemma argsort_insert_sorted vi sorted :
  StronglySorted (before v) sorted → Forall (λ pk, pk < vi)%nat sorted →
  StronglySorted (before v) (argsort_insert v vi sorted).
Proof.
  induction 1 as [|pk rest Hrest IH Hpk]; intros Hlt; simpl.
  { repeat constructor. }
  apply Forall_cons in Hlt as [Hpkvi Hlt].
  case_bool_decide as Hcmp.
  - constructor; [by constructor|]. constructor; [by left|].
    eapply Forall_impl; [exact Hpk|]. intros x Hx. simpl in Hx.
    unfold before in *. left. lia.
  - constructor; [by apply IH|].
    rewrite argsort_insert_Permutation. constructor; [|done].
    unfold before. lia.
Qed.

Lemma argsort_prefix (k : nat) :
  foldl (λ sorted vi, argsort_insert v vi sorted) [] (seq 0 k) ≡ₚ seq 0 k
  ∧ StronglySorted (before v)
      (foldl (λ sorted vi, argsort_insert v vi sorted) [] (seq 0 k)).
Proof.
  induction k as [|k [Hperm Hsorted]].
  { split; [done|constructor]. }
  rewrite seq_S, foldl_snoc. cbn [Nat.add]. split.
  - rewrite argsort_insert_Permutation, Hperm.
    by rewrite <- Permutation_cons_append.
  - apply argsort_insert_sorted; [done|].
    rewrite Hperm. apply Forall_forall. intros i Hi%elem_of_seq. lia.
Qed.

Lemma argsort_Permutation : argsort v ≡ₚ seq 0 (length v).
Proof. apply argsort_prefix. Qed.

Lemma argsort_sorted : StronglySorted (before v) (argsort v).
Proof. apply argsort_prefix. Qed.
End argsort_facts.

Section print_lines_facts.
Variables (shifts : list Z) (order : list nat).
Hypothesis order_Permutation : order ≡ₚ seq 0 (length shifts).

Lemma order_in_range i : i ∈ order → (i < length shifts)%nat.
Proof. rewrite order_Permutation. intros ?%elem_of_seq. lia. Qed.

Lemma print_lines_fmap :
  print_lines order shifts = (λ i, (Z.of_nat i + 1, item shifts i)) <$> order.
Proof.
  unfold print_lines. apply list_eq. intros p.
  rewrite omap_lookup_total, list_lookup_fmap.
  - destruct (order !! p) as [i|] eqn:Hi; [|done]. simpl.
    apply list_elem_of_lookup_2, order_in_range, lookup_lt_is_Some_2 in Hi as [c Hc].
    unfold item. by rewrite Hc.
  - intros i [c Hc]%order_in_range%lookup_lt_is_Some_2. rewrite Hc. by eexists.
Qed.

Lemma print_lines_lookup p s c :
  print_lines order shifts !! p = Some (s, c) →
  ∃ i, order !! p = Some i ∧ s = Z.of_nat i + 1 ∧ c = item shifts i
       ∧ shifts !! i = Some c.
Proof.
  rewrite print_lines_fmap, list_lookup_fmap.
  destruct (order !! p) as [i|] eqn:Hi; [|done]. intros [= <- <-].
  exists i. split_and!; [done..|].
  apply list_elem_of_lookup_2, order_in_range, lookup_lt_is_Some_2 in Hi as [c Hc].
  unfold item. by rewrite Hc.
Qed.

(** One line per shift [1 .. length shifts]. *)
Lemma print_lines_shifts :
  (print_lines order shifts).*1 ≡ₚ range 1 (len shifts + 1).
Proof.
  rewrite print_lines_fmap, <- list_fmap_compose, order_Permutation.
  unfold range, seqZ, len.
  replace (Z.to_nat (Z.of_nat (length shifts) + 1 - 1)) with (length shifts) by lia.
  erewrite list_fmap_ext; [reflexivity|]. intros _ i _. simpl. lia.
Qed.

End print_lines_facts.

(** Whatever ascending order [np.argsort] returns, stable or not, the lines
    printed in its reverse are one per shift, each with the count of its
    shift, and the counts never increase. *)
Lemma print_lines_reverse_ascending (shifts : list Z) (order : list nat) :
  ascending_argsort shifts order →
  (print_lines (reverse order) shifts).*1 ≡ₚ range 1 (len shifts + 1)
  ∧ (∀ s c, (s, c) ∈ print_lines (reverse order) shifts →
       shifts !! Z.to_nat (s - 1) = Some c)
  ∧ descending_counts (print_lines (reverse order) shifts).
Proof.
  intros [Hperm Hasc].
  assert (reverse order ≡ₚ seq 0 (length shifts)) as Hrev.
  { by rewrite reverse_Permutation. }
  split_and!.
  - by apply print_lines_shifts.
  - intros s c [p Hp]%list_elem_of_lookup.
    apply (print_lines_lookup _ _ Hrev) in Hp as (i & _ & -> & _ & Hc).
    by replace (Z.to_nat (Z.of_nat i + 1 - 1)) with i by lia.
  - intros p q s1 c1 s2 c2 Hpq Hp Hq.
    apply (print_lines_lookup _ _ Hrev) in Hp as (i1 & Hi1 & _ & -> & _).
    apply (print_lines_lookup _ _ Hrev) in Hq as (i2 & Hi2 & _ & -> & _).
    apply reverse_lookup_Some in Hi1 as [Hi1 Hp].
    apply reverse_lookup_Some in Hi2 as [Hi2 Hq].
    apply (StronglySorted_lookup _ _ (length order - S q) (length order - S p)
             _ _ Hasc); [lia|done..].
Qed.

(** The embedded sort keeps that promise. *)
Lemma argsort_ascending (v : list Z) : ascending_argsort v (argsort v).
Proof.
  split; [apply argsort_Permutation|].
  eapply StronglySorted_impl; [|apply argsort_sorted].
  intros i j. unfold before. lia.
Qed.

Lemma len_get_shifts (ciphertext : list Z) (shift_max : Z) :
  range 1 (len (get_shifts ciphertext shift_max) + 1) = range 1 (shift_max + 1).
Proof.
  unfold get_shifts, len. rewrite length_fmap, length_range. unfold range, seqZ.
  by replace (Z.to_nat (Z.of_nat (Z.to_nat (shift_max + 1 - 1)) + 1 - 1))
    with (Z.to_nat (shift_max + 1 - 1)) by lia.
Qed.

(** C4 (as the script has it). The coincidence profile as printed has one
    line for every shift [1 .. shift_max], each with the count of its
    shift, in descending order of count, whatever ascending order
    [np.argsort] returns.  The order among shifts of equal count is the
    reverse of the one [np.argsort] returns them in; the script asks for
    none, and the default sort promises none. *)
Theorem profile_descending_any_argsort
    (ciphertext : list Z) (shift_max : Z) (order : list nat) :
  ascending_argsort (get_shifts ciphertext shift_max) order →
  let shifts := get_shifts ciphertext shift_max in
  let lines := print_lines (reverse order) shifts in
  lines.*1 ≡ₚ range 1 (shift_max + 1)
  ∧ (∀ s c, (s, c) ∈ lines → shifts !! Z.to_nat (s - 1) = Some c)
  ∧ descending_counts lines.
Proof.
  intros Horder shifts lines.
  destruct (print_lines_reverse_ascending shifts order Horder) as (Hs & Hc & Hd).
  split_and!; [|done..]. unfold lines. rewrite Hs. unfold shifts.
  by rewrite len_get_shifts.
Qed.

(** The counts of the witness are [0; 4; 0; 4; 0; 6; 0]; the order is one
    that keeps neither the smaller nor the larger index first among equal
    counts. *)
Lemma profile_descending_any_argsort_witness :
  ascending_argsort (get_shifts [0; 1; 0; 2; 0; 1] 7) [6; 0; 4; 2; 3; 1; 5]%nat
  ∧ (print_lines (reverse [6; 0; 4; 2; 3; 1; 5]%nat) (get_shifts [0; 1; 0; 2; 0; 1] 7)).*1
    ≡ₚ range 1 (7 + 1)
  ∧ descending_counts
      (print_lines (reverse [6; 0; 4; 2; 3; 1; 5]%nat) (get_shifts [0; 1; 0; 2; 0; 1] 7)).
Proof.
  assert (ascending_argsort (get_shifts [0; 1; 0; 2; 0; 1] 7) [6; 0; 4; 2; 3; 1; 5]%nat)
    as Horder.
  { split; apply (bool_decide_unpack _); vm_compute; reflexivity. }
  pose proof (profile_descending_any_argsort [0; 1; 0; 2; 0; 1] 7
                [6; 0; 4; 2; 3; 1; 5]%nat Horder) as H.
  split; [exact Horder|]. split; apply H.
Defined.

(** Against C4 as worded: on the ciphertext "AB" every even shift has two
    coincidences and every odd shift none.  Among the orders [np.argsort]
    may return for these counts are orders that end with the indices 13 and
    15; printed in reverse they start with shift 16 followed by shift 14,
    the larger of two shifts of equal count first. *)
Lemma profile_ties_not_smaller_shift_first :
  get_shifts [0; 1] 16 = [0; 2; 0; 2; 0; 2; 0; 2; 0; 2; 0; 2; 0; 2; 0; 2]
  ∧ ∃ order,
      ascending_argsort (get_shifts [0; 1] 16) order
      ∧ print_lines (reverse order) (get_shifts [0; 1] 16) !! 0%nat = Some (16, 2)
      ∧ print_lines (reverse order) (get_shifts [0; 1] 16) !! 1%nat = Some (14, 2)
      ∧ ¬ (descending_counts (print_lines (reverse order) (get_shifts [0; 1] 16))
           ∧ ties_smaller_shift_first
               (print_lines (reverse order) (get_shifts [0; 1] 16))).
Proof.
  split; [reflexivity|].
  exists [0; 2; 4; 6; 8; 10; 12; 14; 7; 5; 1; 3; 11; 9; 13; 15]%nat.
  split_and!; [|reflexivity..|].
  - split; apply (bool_decide_unpack _); vm_compute; reflexivity.
  - intros [_ Hties].
    specialize (Hties 0%nat 1%nat 16 2 14 2 ltac:(lia) eq_refl eq_refl eq_refl). lia.
Qed.

(** * Further properties of the script *)

(** ** [ints_to_string] *)

Lemma add64_small c : - 2 ^ 62 ≤ c ≤ 2 ^ 62 → add64 c 97 = c + 97.
Proof. intros Hc. unfold add64. apply wrap64_small. lia. Qed.

Lemma mapM_cons_Ok {A B} (f : A → result B) (x : A) (l : list A) (out : list B) :
  mapM f (x :: l) = Ok out →
  ∃ y ys, f x = Ok y ∧ mapM f l = Ok ys ∧ out = y :: ys.
Proof.
  simpl. destruct (f x) as [y|e]; [|discriminate]. simpl.
  destruct (mapM f l) as [ys|e]; [|discriminate]. simpl.
  intros [= <-]. eauto.
Qed.

Lemma ints_to_string_Ok (ch : list Z) :
  Forall (λ c, 0 ≤ add64 c 97 < 1114112) ch →
  ints_to_string ch = Ok ((λ c, add64 c 97) <$> ch).
Proof.
  intros Hch. unfold ints_to_string. apply mapM_Ok_map.
  intros c Hc. rewrite Forall_forall in Hch. unfold chr.
  by rewrite decide_True by (by apply Hch).
Qed.

Lemma ints_to_string_codes (ch : list Z) :
  Forall letter_code ch → ints_to_string ch = Ok ((λ c, c + 97) <$> ch).
Proof.
  intros Hch. rewrite ints_to_string_Ok.
  - f_equal. apply Forall_fmap_ext_1. eapply Forall_impl; [exact Hch|].
    intros c Hc. unfold letter_code in Hc. simpl. apply add64_small. lia.
  - eapply Forall_impl; [exact Hch|]. intros c Hc. unfold letter_code in Hc.
    simpl. rewrite add64_small; lia.
Qed.

(** X1. On Letter Codes [ints_to_string] raises nothing: it returns one
    character per code, the small letter [chr(c + 97)], so the string has
    the length of its argument and only holds letters a..z. *)
Theorem ints_to_string_letter_codes (ch : list Z) :
  Forall letter_code ch →
  ints_to_string ch = Ok ((λ c, c + 97) <$> ch)
  ∧ Forall small_letter ((λ c, c + 97) <$> ch)
  ∧ length ((λ c, c + 97) <$> ch) = length ch.
Proof.
  intros Hch. split_and!.
  - by apply ints_to_string_codes.
  - apply Forall_fmap. eapply Forall_impl; [exact Hch|].
    intros c Hc. unfold letter_code in Hc. unfold small_letter. simpl. lia.
  - by rewrite length_fmap.
Qed.

Lemma ints_to_string_letter_codes_witness :
  ints_to_string [10; 4; 24] = Ok ((λ c, c + 97) <$> [10; 4; 24])
  ∧ Forall small_letter ((λ c, c + 97) <$> [10; 4; 24])
  ∧ length ((λ c, c + 97) <$> [10; 4; 24]) = length [10; 4; 24].
Proof.
  apply (ints_to_string_letter_codes [10; 4; 24]).
  repeat constructor; unfold letter_code; lia.
Defined.

(** X2. [ints_to_string] returns a string exactly when every [c + 97]
    (in int64) is a code point, that is in [range(0x110000)]; a single code
    below [-97] makes it raise. *)
Theorem ints_to_string_raises_iff (ch : list Z) :
  (∃ out, ints_to_string ch = Ok out)
  ↔ Forall (λ c, 0 ≤ add64 c 97 < 1114112) ch.
Proof.
  split.
  - intros [out Hout]. revert out Hout. unfold ints_to_string.
    induction ch as [|c ch IH]; intros out Hout; [constructor|].
    apply mapM_cons_Ok in Hout as (y & ys & Hy & Hys & ->).
    constructor; [|by eapply IH].
    unfold chr in Hy. by case_decide.
  - intros Hch. eexists. by apply ints_to_string_Ok.
Qed.

(** ** [get_cipher_text] *)

Lemma list_ascii_of_string_append (s1 s2 : string) :
  list_ascii_of_string (String.append s1 s2)
  = list_ascii_of_string s1 ++ list_ascii_of_string s2.
Proof. induction s1 as [|c s1 IH]; [done|]. simpl. by rewrite IH. Qed.

(** X3. Line feeds are no content: the normalisation of a text split in
    two is the normalisation of the first part followed by that of the
    second, with or without a line feed between them. *)
Theorem get_cipher_text_append (s1 s2 : string) :
  ∃ c1 c2, get_cipher_text s1 = Ok c1 ∧ get_cipher_text s2 = Ok c2
           ∧ get_cipher_text (String.append s1 s2) = Ok (c1 ++ c2)
           ∧ get_cipher_text (String.append s1 (String newline s2)) = Ok (c1 ++ c2).
Proof.
  eexists _, _. split_and!; [done..| |].
  - unfold get_cipher_text.
    by rewrite list_ascii_of_string_append, filter_app, !fmap_app.
  - unfold get_cipher_text. rewrite list_ascii_of_string_append. simpl.
    rewrite filter_app, filter_cons_False by (by intros []).
    by rewrite !fmap_app.
Qed.

(** X4. Normalising a text of capitals (and line feeds) and writing the
    codes back with [ints_to_string] gives the text in small letters, line
    feeds removed: [ord(c) - 65 + 97] is [ord(c) + 32]. *)
Theorem ints_to_string_get_cipher_text (contents : string) :
  let remaining := filter (λ c, c ≠ newline) (list_ascii_of_string contents) in
  Forall (λ c, ord "A" ≤ ord c ≤ ord "Z") remaining →
  ∃ codes, get_cipher_text contents = Ok codes
           ∧ Forall letter_code codes
           ∧ ints_to_string codes = Ok ((λ c, ord c + 32) <$> remaining).
Proof.
  intros remaining Hcaps. unfold get_cipher_text. fold remaining.
  eexists. split; [done|].
  assert (Forall letter_code ((λ x, x - 65) <$> (ord <$> remaining))) as Hcodes.
  { rewrite <- list_fmap_compose. apply Forall_fmap.
    eapply Forall_impl; [exact Hcaps|]. intros c. unfold letter_code, compose.
    change (ord "A") with 65. change (ord "Z") with 90. lia. }
  split; [done|].
  rewrite (ints_to_string_codes _ Hcodes).
  f_equal. rewrite <- !list_fmap_compose. apply list_fmap_ext.
  intros _ c _. simpl. lia.
Qed.

Lemma ints_to_string_get_cipher_text_witness :
  ∃ codes, get_cipher_text "AB
Z" = Ok codes
           ∧ Forall letter_code codes
           ∧ ints_to_string codes = Ok [97; 98; 122].
Proof.
  apply (ints_to_string_get_cipher_text "AB
Z").
  repeat constructor; vm_compute; by intros.
Defined.

(** ** More on key recovery *)

Lemma argmax_scan_lt rest : ∀ mp max_ind i,
  (max_ind < i)%nat → (argmax_scan mp max_ind i rest < i + length rest)%nat.
Proof.
  induction rest as [|x rest IH]; intros mp max_ind i Hlt; simpl; [lia|].
  destruct (fle x mp).
  - specialize (IH mp max_ind (S i)). lia.
  - destruct (is_nan x); [lia|]. specialize (IH x i (S i)). lia.
Qed.

(** The index [np.argmax] returns is an index of the array, NaN or not. *)
Lemma argmax_lt (r : list npfloat) (k : nat) : argmax r = Ok k → (k < length r)%nat.
Proof.
  destruct r as [|x rest]; [done|]. simpl. intros [= <-].
  destruct (is_nan x); [lia|].
  pose proof (argmax_scan_lt rest x 0%nat 1%nat). lia.
Qed.

Lemma get_key_Ok_codes (buckets : list (list Z)) :
  buckets ≠ [] →
  ∃ key, get_key buckets = Ok key
         ∧ length key = length buckets
         ∧ Forall letter_code key.
Proof.
  intros Hne. destruct (get_key_Ok buckets Hne) as (key & Hkey & Hlen & Hpt).
  exists key. split_and!; [done..|].
  apply Forall_lookup_2. intros p z Hz.
  destruct (lookup_lt_is_Some_2 buckets p) as [ct Hct].
  { rewrite <- Hlen. by eapply lookup_lt_Some. }
  destruct (Hpt p ct Hct) as (k & Hk & Hkp).
  apply argmax_lt in Hk. rewrite length_score_row in Hk.
  assert (z = Z.of_nat k) as -> by congruence.
  unfold letter_code. lia.
Qed.

(** X5. Whatever the buckets hold (codes out of range, empty buckets), the
    key [get_key] recovers from a list of buckets that is not empty has one
    shift per bucket, and every shift is a Letter Code. *)
Theorem get_key_letter_codes (buckets : list (list Z)) :
  buckets ≠ [] →
  ∃ key, get_key buckets = Ok key
         ∧ length key = length buckets
         ∧ Forall letter_code key.
Proof. apply get_key_Ok_codes. Qed.

Lemma get_key_letter_codes_witness :
  ∃ key, get_key [[32; -16; 700]; []] = Ok key
         ∧ length key = length [[32; -16; 700]; []]
         ∧ Forall letter_code key.
Proof. apply (get_key_letter_codes [[32; -16; 700]; []]). discriminate. Defined.

Lemma freq_row_Permutation (ct ct' : list Z) : ct ≡ₚ ct' → freq_row ct = freq_row ct'.
Proof.
  intros Hperm. unfold freq_row. apply list_fmap_ext. intros _ c _.
  rewrite !sum_select_eq_scalar. unfold occurrences, len.
  by rewrite Hperm.
Qed.

(** X7. The order of the letters inside a bucket does not matter to key
    recovery: buckets that are permutations of one another give the same
    key. *)
Theorem get_key_Permutation (buckets buckets' : list (list Z)) :
  Forall2 (≡ₚ) buckets buckets' → get_key buckets = get_key buckets'.
Proof.
  intros Hperm. unfold get_key, get_key_with, scores_with.
  assert (cipher_freqs buckets = cipher_freqs buckets') as ->; [|done].
  unfold cipher_freqs. induction Hperm as [|ct ct' b b' Hct _ IH]; [done|].
  csimpl. by rewrite IH, (freq_row_Permutation ct ct' Hct).
Qed.

Lemma get_key_Permutation_witness :
  get_key [[4; 19; 4; 7]; [0; 4]] = get_key [[7; 4; 4; 19]; [4; 0]].
Proof.
  apply get_key_Permutation.
  constructor; [|constructor; [|constructor]].
  - symmetry. etrans; [apply (Permutation_cons_append [4; 4; 19] 7)|].
    apply Permutation_skip, Permutation_swap.
  - apply Permutation_swap.
Defined.

(** ** More on [decode] *)

(** X9. With an empty key [decode] divides by zero at the first element of
    the ciphertext: it raises ZeroDivisionError unless the ciphertext is
    empty too, in which case it returns the empty list. *)
Theorem decode_empty_key (ciphertext : list Z) :
  decode ciphertext []
  = match ciphertext with [] => Ok [] | _ :: _ => Raise ZeroDivisionError end.
Proof.
  destruct ciphertext as [|c ct]; [reflexivity|].
  unfold decode. rewrite range_0_len. reflexivity.
Qed.

Lemma shift_unshift c k :
  letter_code c → letter_code k → (sub64 (add64 26 c) k `mod` 26 + k) `mod` 26 = c.
Proof.
  intros Hc Hk. unfold letter_code in Hc, Hk.
  unfold sub64, add64. rewrite !wrap64_small by (rewrite ?wrap64_small; lia).
  rewrite Zplus_mod_idemp_l.
  replace (26 + c - k + k) with (c + 1 * 26) by lia.
  rewrite Z.mod_add by lia. by apply Z.mod_small.
Qed.

Lemma decode_then_shift (ciphertext key : list Z) :
  key ≠ [] → Forall letter_code ciphertext → Forall letter_code key →
  ∃ plaintext, decode ciphertext key = Ok plaintext
               ∧ length plaintext = length ciphertext
               ∧ Forall letter_code plaintext
               ∧ shift_by_key plaintext key = ciphertext.
Proof.
  intros Hkey Hct Hk. eexists. split; [by apply decode_Ok|]. split_and!.
  - by rewrite length_imap.
  - apply Forall_lookup_2. intros i x Hi. rewrite list_lookup_imap in Hi.
    destruct (ciphertext !! i); simplify_eq/=.
    unfold letter_code. apply Z.mod_pos_bound. lia.
  - unfold shift_by_key. apply list_eq. intros i.
    rewrite !list_lookup_imap.
    destruct (ciphertext !! i) as [c|] eqn:Hc; [|done]. simpl. f_equal.
    assert (0 < length key)%nat as Hlen by (destruct key; simpl; [done|lia]).
    destruct (lookup_lt_is_Some_2 key (i `mod` length key)%nat) as [k Hki].
    { apply Nat.mod_upper_bound. lia. }
    rewrite Hki. simpl.
    apply shift_unshift;
      [exact (Forall_lookup_1 _ _ _ _ Hct Hc)|exact (Forall_lookup_1 _ _ _ _ Hk Hki)].
Qed.

(** X10. The other round trip: for a ciphertext and a key of Letter Codes,
    shifting what [decode] returns by the key again gives back the
    ciphertext, so that [decode] with a key is a bijection on texts of
    Letter Codes (with the round trip of decoding a shifted text). *)
Theorem shift_by_key_decode (ciphertext key : list Z) :
  key ≠ [] → Forall letter_code ciphertext → Forall letter_code key →
  ∃ plaintext, decode ciphertext key = Ok plaintext
               ∧ shift_by_key plaintext key = ciphertext.
Proof.
  intros Hkey Hct Hk.
  destruct (decode_then_shift ciphertext key Hkey Hct Hk) as (pt & Hpt & _ & _ & Hshift).
  eauto.
Qed.

Lemma shift_by_key_decode_witness :
  ∃ plaintext, decode [17; 8; 9; 21; 18] [10; 4; 24] = Ok plaintext
               ∧ shift_by_key plaintext [10; 4; 24] = [17; 8; 9; 21; 18].
Proof.
  apply (shift_by_key_decode [17; 8; 9; 21; 18] [10; 4; 24]).
  - discriminate.
  - repeat constructor; unfold letter_code; lia.
  - repeat constructor; unfold letter_code; lia.
Defined.

(** X11. Decoding goes bucket by bucket: with a key of [L] shifts, bucket
    [p] of the decoded text is bucket [p] of the ciphertext decoded with
    the single shift [key[p]]. *)
Theorem decode_bucketwise (ciphertext key : list Z) (p : nat) :
  (p < length key)%nat →
  ∃ plaintext k b b',
    decode ciphertext key = Ok plaintext ∧ key !! p = Some k
    ∧ get_buckets ciphertext (len key) !! p = Some b
    ∧ get_buckets plaintext (len key) !! p = Some b'
    ∧ decode b [k] = Ok b'.
Proof.
  intros Hp.
  assert (key ≠ []) as Hkey by (intros ->; simpl in Hp; lia).
  destruct (lookup_lt_is_Some_2 key p Hp) as [k Hk].
  eexists _, k, _, _. split_and!.
  - by apply decode_Ok.
  - done.
  - rewrite get_buckets_lookup. unfold len. rewrite Nat2Z.id. by rewrite decide_True.
  - rewrite get_buckets_lookup. unfold len. rewrite Nat2Z.id. by rewrite decide_True.
  - rewrite decode_Ok by done. f_equal. apply list_eq. intros j.
    rewrite list_lookup_imap, !slice_step_lookup, list_lookup_imap by lia.
    destruct (ciphertext !! (p + j * length key)%nat) as [c|]; [|done].
    simpl. do 3 f_equal.
    by rewrite Nat.Div0.mod_add, Nat.mod_small, Hk by done.
Qed.

Lemma decode_bucketwise_witness :
  ∃ plaintext k b b',
    decode [17; 8; 9; 21; 18] [10; 4; 24] = Ok plaintext
    ∧ [10; 4; 24] !! 1%nat = Some k
    ∧ get_buckets [17; 8; 9; 21; 18] (len [10; 4; 24]) !! 1%nat = Some b
    ∧ get_buckets plaintext (len [10; 4; 24]) !! 1%nat = Some b'
    ∧ decode b [k] = Ok b'.
Proof. apply (decode_bucketwise [17; 8; 9; 21; 18] [10; 4; 24] 1). simpl. lia. Defined.

(** ** More on the coincidence counts *)

Lemma get_shifts_lookup (ciphertext : list Z) (shift_max s : Z) :
  1 ≤ s ≤ shift_max →
  get_shifts ciphertext shift_max !! Z.to_nat (s - 1)
  = Some (sum_bool (eq_array ciphertext (roll ciphertext s))).
Proof.
  intros Hs. unfold get_shifts, range.
  rewrite list_lookup_fmap, lookup_seqZ_lt by lia. simpl.
  by replace (1 + Z.of_nat (Z.to_nat (s - 1))) with s by lia.
Qed.

(** Rolling by two amounts that differ by a multiple of the length gives
    the same array. *)
Lemma roll_congruent {A} (a : list A) (s s' : Z) :
  (s - s') `mod` len a = 0 → roll a s = roll a s'.
Proof.
  intros Hmod. unfold roll. cbv zeta.
  destruct (decide (length a = 0)%nat) as [Hnil|Hne].
  { by rewrite !Z.mod_1_r. }
  unfold len in Hmod.
  assert (s `mod` Z.of_nat (length a) = s' `mod` Z.of_nat (length a)) as ->; [|done].
  apply Z.mod_divide in Hmod as [q Hq]; [|lia].
  replace s with (s' + q * Z.of_nat (length a)) by lia.
  apply Z.mod_add. lia.
Qed.

Lemma roll_0 {A} (a : list A) : roll a 0 = a.
Proof.
  unfold roll. cbv zeta. rewrite Z.mod_0_l by (case_decide; lia).
  change (Z.to_nat 0) with 0%nat. rewrite Nat.sub_0_r.
  by rewrite drop_all, take_ge.
Qed.

Lemma sum_bool_roll_negated (ciphertext : list Z) (s : Z) :
  sum_bool (eq_array ciphertext (roll ciphertext s))
  = sum_bool (eq_array ciphertext (roll ciphertext (- s))).
Proof.
  rewrite <- (sum_bool_roll _ (- s)).
  unfold eq_array. rewrite roll_zip_with by (by rewrite length_roll).
  rewrite roll_roll_back. fold (eq_array (roll ciphertext (- s)) ciphertext).
  apply f_equal, eq_array_sym.
Qed.

(** X12. The count of a shift depends on the shift modulo the ciphertext
    length [N] only, and up to sign: two shifts whose difference or whose
    sum is a multiple of [N] have the same count (the counts of the shifts
    [s], [s + N] and [N - s] are equal). *)
Theorem get_shifts_congruent (ciphertext : list Z) (shift_max s s' : Z) :
  1 ≤ s ≤ shift_max → 1 ≤ s' ≤ shift_max →
  (s - s') `mod` len ciphertext = 0 ∨ (s + s') `mod` len ciphertext = 0 →
  get_shifts ciphertext shift_max !! Z.to_nat (s - 1)
  = get_shifts ciphertext shift_max !! Z.to_nat (s' - 1).
Proof.
  intros Hs Hs' Hmod. rewrite !get_shifts_lookup by done. f_equal.
  destruct Hmod as [Hmod|Hmod].
  - by rewrite (roll_congruent ciphertext s s').
  - rewrite sum_bool_roll_negated.
    rewrite (roll_congruent ciphertext (- s) s'); [done|].
    replace (- s - s') with (- (s + s')) by lia.
    destruct (decide (len ciphertext = 0)) as [H0|H0].
    + rewrite H0, Z.mod_0_r in Hmod. lia.
    + by apply Z.mod_opp_l_z.
Qed.

Lemma get_shifts_congruent_witness :
  get_shifts [0; 1; 0; 2; 0; 1; 1] 16 !! Z.to_nat (2 - 1)
  = get_shifts [0; 1; 0; 2; 0; 1; 1] 16 !! Z.to_nat (12 - 1).
Proof.
  apply (get_shifts_congruent [0; 1; 0; 2; 0; 1; 1] 16 2 12); [lia..|].
  right. reflexivity.
Defined.

Lemma sum_cons (x : Z) (a : list Z) : Np.sum (x :: a) = x + Np.sum a.
Proof. reflexivity. Qed.

Lemma sum_bool_bounds (m : list bool) : 0 ≤ sum_bool m ≤ Z.of_nat (length m).
Proof.
  unfold sum_bool. induction m as [|b m IH]; [done|].
  rewrite fmap_cons, sum_cons. simpl length. rewrite Nat2Z.inj_succ.
  destruct b; simpl Z.b2z; lia.
Qed.

Lemma sum_bool_eq_array_refl (a : list Z) : sum_bool (eq_array a a) = len a.
Proof.
  unfold sum_bool, eq_array, len.
  induction a as [|x a IH]; [done|].
  cbn [zip_with]. rewrite fmap_cons, sum_cons, IH, Z.eqb_refl.
  simpl length. rewrite Nat2Z.inj_succ. simpl Z.b2z. lia.
Qed.

(** X13. Every coincidence count lies between 0 and the ciphertext length
    [N], and at a shift that is a multiple of [N] it is [N]: rolled by such
    a shift the ciphertext coincides with itself everywhere, so shifts from
    [N] on say nothing about the key. *)
Theorem get_shifts_bounds (ciphertext : list Z) (shift_max : Z) :
  Forall (λ count, 0 ≤ count ≤ len ciphertext) (get_shifts ciphertext shift_max)
  ∧ ∀ s, 1 ≤ s ≤ shift_max → s `mod` len ciphertext = 0 →
      get_shifts ciphertext shift_max !! Z.to_nat (s - 1) = Some (len ciphertext).
Proof.
  split.
  - unfold get_shifts. apply Forall_fmap, Forall_forall. intros s _. simpl.
    pose proof (sum_bool_bounds (eq_array ciphertext (roll ciphertext s))) as Hb.
    unfold eq_array in Hb. rewrite length_zip_with, length_roll, Nat.min_id in Hb.
    done.
  - intros s Hs Hmod. rewrite get_shifts_lookup by done. f_equal.
    rewrite (roll_congruent ciphertext s 0) by (by rewrite Z.sub_0_r).
    rewrite roll_0. apply sum_bool_eq_array_refl.
Qed.

Lemma eq_array_fmap_inj (f : Z → Z) (a b : list Z) :
  (∀ x y, x ∈ a → y ∈ b → f x = f y → x = y) →
  eq_array (f <$> a) (f <$> b) = eq_array a b.
Proof.
  revert b. induction a as [|x a IH]; intros b Hinj; [done|].
  destruct b as [|y b]; [done|]. unfold eq_array in *. csimpl. f_equal.
  - destruct (Z.eqb_spec (f x) (f y)) as [Heq|Hne], (Z.eqb_spec x y) as [Hxy|Hxy];
      try done.
    + destruct Hxy. apply Hinj; [constructor..|done].
    + destruct Hne. by rewrite Hxy.
  - apply IH. intros x' y' Hx' Hy'. apply Hinj; by constructor.
Qed.

Lemma roll_fmap {A B} (f : A → B) (a : list A) (s : Z) :
  roll (f <$> a) s = f <$> roll a s.
Proof. unfold roll. by rewrite length_fmap, fmap_app, fmap_drop, fmap_take. Qed.

Lemma elem_of_roll {A} (a : list A) (s : Z) (x : A) : x ∈ roll a s → x ∈ a.
Proof.
  unfold roll. intros [Hx|Hx]%elem_of_app.
  - by eapply subseteq_drop.
  - by eapply subseteq_take.
Qed.

(** X14. The coincidence counts do not change when the letters of the
    ciphertext are renamed one to one, as a substitution of the alphabet
    does: only which positions hold equal letters matters. *)
Theorem get_shifts_relabel (f : Z → Z) (ciphertext : list Z) (shift_max : Z) :
  (∀ x y, x ∈ ciphertext → y ∈ ciphertext → f x = f y → x = y) →
  get_shifts (f <$> ciphertext) shift_max = get_shifts ciphertext shift_max.
Proof.
  intros Hinj. unfold get_shifts. apply list_fmap_ext. intros _ s _. simpl.
  rewrite roll_fmap, eq_array_fmap_inj; [done|].
  intros x y Hx Hy. apply Hinj; [done|]. by eapply elem_of_roll.
Qed.

Lemma get_shifts_relabel_witness :
  get_shifts ((λ x, x + 3) <$> [0; 1; 0; 2; 0; 1]) 16 = get_shifts [0; 1; 0; 2; 0; 1] 16.
Proof.
  apply (get_shifts_relabel (λ x, x + 3) [0; 1; 0; 2; 0; 1] 16).
  intros x y _ _ Hxy. lia.
Defined.

(** ** More on the buckets *)

(** X15. The buckets are as even as can be: with [N = q * L + r], [r < L],
    the first [r] buckets have [q + 1] elements and the others [q]. *)
Theorem get_buckets_lengths (ciphertext : list Z) (key_length : Z) (p : nat) :
  1 ≤ key_length → (p < Z.to_nat key_length)%nat →
  let L := Z.to_nat key_length in
  let N := length ciphertext in
  ∃ b, get_buckets ciphertext key_length !! p = Some b
       ∧ length b = (N / L + if decide (p < N `mod` L) then 1 else 0)%nat.
Proof.
  intros HL Hp L N. exists (slice_step ciphertext p L). split.
  { rewrite get_buckets_lookup. by rewrite decide_True. }
  assert (0 < L)%nat as HLpos by (subst L; lia).
  rewrite length_slice_step by done.
  unfold slice_indices. rewrite length_fmap, length_seq. fold N.
  pose proof (Nat.div_mod_eq N L) as Hdiv.
  pose proof (Nat.mod_upper_bound N L ltac:(lia)) as Hr.
  set (q := (N / L)%nat) in *. set (r := (N `mod` L)%nat) in *.
  case_decide as Hpr.
  - symmetry. apply (Nat.div_unique _ _ _ (r - p - 1)); nia.
  - destruct (decide (p ≤ N)%nat) as [HpN|HpN].
    + symmetry. apply (Nat.div_unique _ _ _ (r + L - 1 - p)); nia.
    + assert (q = 0)%nat as -> by nia.
      symmetry. apply (Nat.div_unique _ _ _ (L - 1)); lia.
Qed.

Lemma get_buckets_lengths_witness :
  ∃ b, get_buckets [0; 1; 2; 3; 4; 5; 6] 3 !! 1%nat = Some b
       ∧ length b = (7 / 3 + if decide (1 < 7 `mod` 3) then 1 else 0)%nat.
Proof. apply (get_buckets_lengths [0; 1; 2; 3; 4; 5; 6] 3 1); simpl; lia. Defined.

(** ** [get_top_shifts] *)

Lemma take_indices_Ok (v : list Z) (a : list nat) :
  Forall (λ i, i < length v)%nat a → take_indices v a = Ok (item v <$> a).
Proof.
  intros Ha. unfold take_indices. apply mapM_Ok_map. intros i Hi.
  rewrite Forall_forall in Ha. apply Ha, lookup_lt_is_Some_2 in Hi as [x Hx].
  unfold item. by rewrite Hx.
Qed.

Lemma argmax_int_scan_spec rest : ∀ mp max_ind i,
  let k := argmax_int_scan mp max_ind i rest in
  (k = max_ind ∧ ∀ x, x ∈ rest → x ≤ mp)
  ∨ (∃ d m, k = (i + d)%nat ∧ rest !! d = Some m ∧ mp < m
            ∧ (∀ x, x ∈ rest → x ≤ m)
            ∧ (∀ j x, (j < d)%nat → rest !! j = Some x → x < m)).
Proof.
  induction rest as [|x rest IH]; intros mp max_ind i; simpl.
  { left. split; [done|]. by intros x ?%elem_of_nil. }
  case_bool_decide as Hx.
  - destruct (IH x i (S i)) as [[-> Hall]|(d & m & -> & Hm & Hgt & Hall & Hfirst)].
    + right. exists 0%nat, x. split_and!; [lia|done|done| |].
      * intros y [->|Hy]%elem_of_cons; [lia|auto].
      * intros j y Hj. lia.
    + right. exists (S d), m. split_and!; [lia|done|lia| |].
      * intros y [->|Hy]%elem_of_cons; [lia|auto].
      * intros [|j] y Hj Hy; simplify_eq/=; [lia|]. apply (Hfirst j); [lia|done].
  - destruct (IH mp max_ind (S i)) as [[-> Hall]|(d & m & -> & Hm & Hgt & Hall & Hfirst)].
    + left. split; [done|]. intros y [->|Hy]%elem_of_cons; [lia|auto].
    + right. exists (S d), m. split_and!; [lia|done|done| |].
      * intros y [->|Hy]%elem_of_cons; [lia|auto].
      * intros [|j] y Hj Hy; simplify_eq/=; [lia|]. apply (Hfirst j); [lia|done].
Qed.

(** [np.argmax] of an int array that is not empty: the first index of the
    maximum. *)
Lemma argmax_int_first_maximum (vals : list Z) :
  vals ≠ [] →
  ∃ n m, argmax_int vals = Ok n ∧ vals !! n = Some m
         ∧ (∀ j y, vals !! j = Some y → y ≤ m)
         ∧ (∀ j y, (j < n)%nat → vals !! j = Some y → y < m).
Proof.
  destruct vals as [|x rest]; [done|]. intros _. unfold argmax_int.
  destruct (argmax_int_scan_spec rest x 0%nat 1%nat)
    as [[-> Hall]|(d & m & -> & Hm & Hgt & Hall & Hfirst)].
  - exists 0%nat, x. split_and!; [done..| |].
    + intros [|j] y Hy; simplify_eq/=; [lia|]. by eapply Hall, list_elem_of_lookup_2.
    + intros j y Hj. lia.
  - exists (1 + d)%nat, m. split_and!; [done..| |].
    + intros [|j] y Hy; simplify_eq/=; [lia|]. by eapply Hall, list_elem_of_lookup_2.
    + intros [|j] y Hj Hy; simplify_eq/=; [lia|]. apply (Hfirst j); [lia|done].
Qed.

Lemma select_ne_scalar (a : list nat) (c : nat) :
  select a (ne_scalar a c) = filter (λ x, x ≠ c) a.
Proof.
  unfold select, ne_scalar. induction a as [|x a IH]; [done|].
  csimpl. rewrite !filter_cons. simpl.
  destruct (Nat.eqb_spec x c) as [->|Hne]; simpl;
    repeat case_decide; try done; csimpl; try f_equal; exact IH.
Qed.

Section ascending_indices.
Implicit Types (a : list nat) (c : nat).

Lemma filter_ne_above a c : Forall (λ x, c < x)%nat a → filter (λ x, x ≠ c) a = a.
Proof.
  induction 1 as [|x a Hx _ IH]; [done|].
  rewrite filter_cons, decide_True by lia. by rewrite IH.
Qed.

Lemma filter_ne_sorted a c :
  StronglySorted lt a → StronglySorted lt (filter (λ x, x ≠ c) a).
Proof.
  induction 1 as [|x a Ha IH Hx]; [constructor|].
  rewrite filter_cons. case_decide; [|done].
  constructor; [done|]. apply Forall_forall. intros y [_ Hy]%list_elem_of_filter.
  rewrite Forall_forall in Hx. by apply Hx.
Qed.

Lemma filter_ne_length a c :
  StronglySorted lt a → c ∈ a → S (length (filter (λ x, x ≠ c) a)) = length a.
Proof.
  induction 1 as [|x a Ha IH Hx]; intros Hc; [by apply elem_of_nil in Hc|].
  rewrite filter_cons. destruct (decide (x = c)) as [->|Hne].
  - rewrite decide_False by (by intros ?). by rewrite filter_ne_above.
  - rewrite decide_True by done. simpl. f_equal. apply IH.
    by apply elem_of_cons in Hc as [->|Hc].
Qed.
End ascending_indices.

(** One turn of the loop on an array [a] of ascending indices that is not
    empty: the index picked ranks before every other index left in [a],
    and the loop goes on without it. *)
Lemma top_shifts_loop_step (shifts : list Z) (a : list nat) :
  a ≠ [] → StronglySorted lt a → Forall (λ i, i < length shifts)%nat a →
  ∃ an, an ∈ a
        ∧ (∀ j, j ∈ a → j ≠ an → ranks_before shifts an j)
        ∧ ∀ i iterations top,
            top_shifts_loop shifts (i :: iterations) top a
            = top_shifts_loop shifts iterations
                (top ++ [Fin (inject_Z (Z.of_nat an + 1))])
                (filter (λ x, x ≠ an) a).
Proof.
  intros Hne Hsorted Hrange.
  destruct (argmax_int_first_maximum (item shifts <$> a))
    as (n & m & Hn & Hm & Hmax & Hfirst).
  { by destruct a. }
  rewrite list_lookup_fmap in Hm.
  destruct (a !! n) as [an|] eqn:Han; [|done]. simpl in Hm. injection Hm as <-.
  exists an. split_and!.
  - by eapply list_elem_of_lookup_2.
  - intros j [k Hk]%list_elem_of_lookup Hj.
    assert ((item shifts <$> a) !! k = Some (item shifts j)) as Hvk.
    { by rewrite list_lookup_fmap, Hk. }
    unfold ranks_before.
    destruct (Nat.lt_trichotomy k n) as [Hlt|[->|Hgt]].
    + left. by apply (Hfirst k).
    + congruence.
    + pose proof (Hmax k _ Hvk).
      pose proof (StronglySorted_lookup _ _ _ _ _ _ Hsorted Hgt Han Hk). lia.
  - intros i iterations top. simpl.
    rewrite (take_indices_Ok _ _ Hrange). simpl.
    rewrite Hn. simpl. rewrite Han. simpl.
    by rewrite select_ne_scalar.
Qed.

Lemma top_shifts_loop_Ok (shifts : list Z) (iterations : list Z) :
  ∀ top a,
  StronglySorted lt a → Forall (λ i, i < length shifts)%nat a →
  (length iterations ≤ length a)%nat →
  ∃ idxs,
    top_shifts_loop shifts iterations top a
    = Ok (top ++ ((λ i : nat, Fin (inject_Z (Z.of_nat i + 1))) <$> idxs))
    ∧ length idxs = length iterations
    ∧ Forall (λ i, i ∈ a) idxs
    ∧ NoDup idxs
    ∧ StronglySorted (ranks_before shifts) idxs
    ∧ ∀ i j, i ∈ idxs → j ∈ a → j ∉ idxs → ranks_before shifts i j.
Proof.
  induction iterations as [|it iterations IH]; intros top a Hsorted Hrange Hlen.
  { exists []. simpl. rewrite app_nil_r. split_and!; [done..|constructor|constructor|constructor|].
    by intros i j ?%elem_of_nil. }
  assert (a ≠ []) as Hne by (intros ->; simpl in Hlen; lia).
  destruct (top_shifts_loop_step shifts a Hne Hsorted Hrange) as (an & Han & Hbest & Hstep).
  pose proof (filter_ne_length a an Hsorted Han) as Hlen'.
  destruct (IH (top ++ [Fin (inject_Z (Z.of_nat an + 1))]) (filter (λ x, x ≠ an) a))
    as (idxs & Hrun & Hn & Hsub & Hnodup & Hord & Hrest).
  { by apply filter_ne_sorted. }
  { apply Forall_forall. intros x [_ Hx]%list_elem_of_filter.
    rewrite Forall_forall in Hrange. by apply Hrange. }
  { simpl in Hlen. lia. }
  assert (∀ i, i ∈ idxs → i ∈ a ∧ i ≠ an) as Hidx.
  { intros i Hi. rewrite Forall_forall in Hsub.
    apply Hsub, list_elem_of_filter in Hi. tauto. }
  exists (an :: idxs). split_and!.
  - rewrite Hstep, Hrun. by rewrite <- app_assoc.
  - simpl. by rewrite Hn.
  - constructor; [done|]. apply Forall_forall. intros i Hi. by apply Hidx.
  - constructor; [|done]. intros Hi. by apply Hidx in Hi as [_ ?].
  - constructor; [done|]. apply Forall_forall. intros i Hi.
    apply Hidx in Hi as [? ?]. by apply Hbest.
  - intros i j [->|Hi]%elem_of_cons Hj Hnot.
    + apply Hbest; [done|]. intros ->. apply Hnot. constructor.
    + apply Hrest; [done| |].
      * apply list_elem_of_filter. split; [|done]. intros ->. apply Hnot. constructor.
      * intros Hj'. apply Hnot. by constructor.
Qed.

Lemma top_shifts_loop_Raise (shifts : list Z) (iterations : list Z) :
  ∀ top a,
  StronglySorted lt a → Forall (λ i, i < length shifts)%nat a →
  (length a < length iterations)%nat →
  top_shifts_loop shifts iterations top a = Raise ValueError.
Proof.
  induction iterations as [|it iterations IH]; intros top a Hsorted Hrange Hlen.
  { simpl in Hlen. lia. }
  destruct (decide (a = [])) as [->|Hne]; [done|].
  destruct (top_shifts_loop_step shifts a Hne Hsorted Hrange) as (an & Han & _ & Hstep).
  pose proof (filter_ne_length a an Hsorted Han) as Hlen'.
  rewrite Hstep. apply IH.
  - by apply filter_ne_sorted.
  - apply Forall_forall. intros x [_ Hx]%list_elem_of_filter.
    rewrite Forall_forall in Hrange. by apply Hrange.
  - simpl in Hlen. lia.
Qed.

Lemma arange_sorted (n : nat) : StronglySorted lt (arange n).
Proof.
  unfold arange. generalize 0%nat. induction n as [|n IH]; intros k; [constructor|].
  simpl. constructor; [apply IH|].
  apply Forall_forall. intros x Hx%elem_of_seq. lia.
Qed.

Lemma arange_range (n : nat) : Forall (λ i, i < n)%nat (arange n).
Proof. apply Forall_forall. intros x Hx%elem_of_seq. lia. Qed.

(** X16. [get_top_shifts] asked for more shifts than there are counts runs
    out of candidates and raises (the ValueError of [np.argmax] on an empty
    array) instead of returning the shifts there are. *)
Theorem get_top_shifts_too_many (shifts : list Z) (N : Z) :
  len shifts < N → get_top_shifts shifts N = Raise ValueError.
Proof.
  intros HN. unfold get_top_shifts. apply top_shifts_loop_Raise.
  - apply arange_sorted.
  - apply arange_range.
  - rewrite length_range. unfold arange, len in *. rewrite length_seq. lia.
Qed.

Lemma get_top_shifts_too_many_witness :
  get_top_shifts [0; 2; 0; 2; 5; 1] 7 = Raise ValueError.
Proof.
  apply (get_top_shifts_too_many [0; 2; 0; 2; 5; 1] 7). unfold len. simpl. lia.
Defined.

(** X17. Asked for [N] shifts out of at least [N] counts, [get_top_shifts]
    returns [N] different shifts, as floats [index + 1], in descending
    order of count and, among equal counts, smaller shift first; every
    shift it leaves out ranks after every shift it returns. *)
Theorem get_top_shifts_ranked (shifts : list Z) (N : Z) :
  N ≤ len shifts →
  ∃ idxs,
    get_top_shifts shifts N
    = Ok ((λ i : nat, Fin (inject_Z (Z.of_nat i + 1))) <$> idxs)
    ∧ length idxs = Z.to_nat N
    ∧ NoDup idxs
    ∧ Forall (λ i, i < length shifts)%nat idxs
    ∧ StronglySorted (ranks_before shifts) idxs
    ∧ ∀ i j, i ∈ idxs → (j < length shifts)%nat → j ∉ idxs → ranks_before shifts i j.
Proof.
  intros HN. unfold get_top_shifts.
  destruct (top_shifts_loop_Ok shifts (range 0 N) [] (arange (length shifts)))
    as (idxs & Hrun & Hn & Hsub & Hnodup & Hord & Hrest).
  - apply arange_sorted.
  - apply arange_range.
  - rewrite length_range. unfold arange, len in *. rewrite length_seq. lia.
  - exists idxs. split_and!; [done| |done| |done|].
    + rewrite Hn, length_range. f_equal. lia.
    + eapply Forall_impl; [exact Hsub|]. intros i Hi%elem_of_seq. simpl. lia.
    + intros i j Hi Hj Hnot. apply Hrest; [done| |done].
      apply elem_of_seq. lia.
Qed.

Lemma get_top_shifts_ranked_witness :
  ∃ idxs,
    get_top_shifts [0; 2; 0; 2; 5; 1] 3
    = Ok ((λ i : nat, Fin (inject_Z (Z.of_nat i + 1))) <$> idxs)
    ∧ length idxs = Z.to_nat 3
    ∧ NoDup idxs
    ∧ Forall (λ i, i < length [0; 2; 0; 2; 5; 1])%nat idxs
    ∧ StronglySorted (ranks_before [0; 2; 0; 2; 5; 1]) idxs
    ∧ ∀ i j, i ∈ idxs → (j < length [0; 2; 0; 2; 5; 1])%nat → j ∉ idxs →
        ranks_before [0; 2; 0; 2; 5; 1] i j.
Proof.
  apply (get_top_shifts_ranked [0; 2; 0; 2; 5; 1] 3). unfold len. simpl. lia.
Defined.

(** ** The run of the script *)

Lemma decode_Ok_codes (ciphertext key : list Z) :
  key ≠ [] →
  ∃ out, decode ciphertext key = Ok out
         ∧ length out = length ciphertext
         ∧ Forall letter_code out.
Proof.
  intros Hkey. eexists. split; [by apply decode_Ok|]. split.
  - by rewrite length_imap.
  - apply Forall_lookup_2. intros i x Hi. rewrite list_lookup_imap in Hi.
    destruct (ciphertext !! i); simplify_eq/=.
    unfold letter_code. apply Z.mod_pos_bound. lia.
Qed.

Lemma length_print_lines (shifts : list Z) (order : list nat) :
  ascending_argsort shifts order →
  length (print_lines (reverse order) shifts) = length shifts.
Proof.
  intros Horder.
  destruct (print_lines_reverse_ascending shifts order Horder) as (Hshifts & _ & _).
  apply Permutation_length in Hshifts.
  rewrite length_fmap, length_range in Hshifts. unfold len in *. lia.
Qed.

Lemma length_report (shifts : list Z) : length (report shifts) = length shifts.
Proof. apply length_print_lines, argsort_ascending. Qed.

Lemma length_profile_with (sort : list Z → list nat) (ciphertext : list Z) :
  (∀ v, ascending_argsort v (sort v)) →
  length ((λ l : Z * Z, ShiftLine l.1 l.2)
            <$> print_lines (reverse (sort (get_shifts ciphertext 16)))
                  (get_shifts ciphertext 16)) = 16%nat.
Proof.
  intros Hsort. rewrite length_fmap, length_print_lines by apply Hsort.
  unfold get_shifts. by rewrite length_fmap, length_range.
Qed.

Lemma length_profile (ciphertext : list Z) :
  length ((λ l : Z * Z, ShiftLine l.1 l.2) <$> report (get_shifts ciphertext 16)) = 16%nat.
Proof. apply (length_profile_with argsort), argsort_ascending. Qed.

Lemma small_letters (codes : list Z) :
  Forall letter_code codes → Forall small_letter ((λ c, c + 97) <$> codes).
Proof.
  intros Hc. apply Forall_fmap. eapply Forall_impl; [exact Hc|].
  intros c. unfold letter_code, small_letter. simpl. lia.
Qed.

(** What the script prints when every step returns. *)
Lemma run_with_returns product sort contents key_length
    ciphertext key key_string plaintext text :
  get_cipher_text contents = Ok ciphertext →
  get_key_with product (get_buckets ciphertext key_length) = Ok key →
  ints_to_string key = Ok key_string →
  decode ciphertext key = Ok plaintext →
  ints_to_string plaintext = Ok text →
  run_with product sort contents key_length
  = (((λ l : Z * Z, ShiftLine l.1 l.2)
        <$> print_lines (reverse (sort (get_shifts ciphertext 16)))
              (get_shifts ciphertext 16))
       ++ [KeyLine key_string; TextLine text], None).
Proof.
  intros Hct Hkey Hks Hpt Htext. unfold run_with.
  rewrite Hct. cbv beta iota zeta. rewrite Hkey, Hks, Hpt.
  unfold mbind, result_bind, bind. cbv beta iota.
  by rewrite Htext.
Qed.

Lemma run_returns contents key_length ciphertext key key_string plaintext text :
  get_cipher_text contents = Ok ciphertext →
  get_key (get_buckets ciphertext key_length) = Ok key →
  ints_to_string key = Ok key_string →
  decode ciphertext key = Ok plaintext →
  ints_to_string plaintext = Ok text →
  run contents key_length
  = (((λ l : Z * Z, ShiftLine l.1 l.2) <$> report (get_shifts ciphertext 16))
       ++ [KeyLine key_string; TextLine text], None).
Proof. apply run_with_returns. Qed.

(** Whichever kernel computes the product, the key recovered from a list of
    buckets that is not empty has one Letter Code per bucket. *)
Lemma get_key_with_Ok_codes product (buckets : list (list Z)) :
  float_product product → buckets ≠ [] →
  ∃ key, get_key_with product buckets = Ok key
         ∧ length key = length buckets
         ∧ Forall letter_code key.
Proof.
  intros Hprod Hne.
  destruct (get_key_with_Ok product buckets Hprod Hne)
    as (R & key & _ & Hkey & HlenR & Hlen & Hpt).
  exists key. split_and!; [done..|].
  apply Forall_lookup_2. intros p z Hz.
  destruct (lookup_lt_is_Some_2 R p) as [r Hr].
  { rewrite HlenR, <- Hlen. by eapply lookup_lt_Some. }
  destruct (Hpt p r Hr) as (Hlr & k & Hk & Hkp).
  apply argmax_lt in Hk. rewrite Hlr in Hk.
  assert (z = Z.of_nat k) as -> by congruence.
  unfold letter_code. lia.
Qed.

(** X18. Once [file.read()] has returned the text of the file, and given a
    key length of at least 1, the script runs to its end, whatever
    characters the text holds and even if it holds none, whichever kernel
    computes the matrix product and whichever order [np.argsort] returns: it
    prints 16 lines of coincidence counts, a key of [key_length] small
    letters and a text of as many small letters as the text read has
    characters other than line feeds.  (The text read is not the file's
    bytes: a CR or CR LF of the file is a line feed in it, and a file that
    does not decode has none.) *)
Theorem run_completes product (sort : list Z → list nat)
    (contents : string) (key_length : Z) :
  float_product product → (∀ v, ascending_argsort v (sort v)) →
  1 ≤ key_length →
  ∃ profile key_string text,
    run_with product sort contents key_length
    = (profile ++ [KeyLine key_string; TextLine text], None)
    ∧ length profile = 16%nat
    ∧ len key_string = key_length ∧ Forall small_letter key_string
    ∧ length text
      = length (filter (λ c, c ≠ newline) (list_ascii_of_string contents))
    ∧ Forall small_letter text.
Proof.
  intros Hprod Hsort HL.
  set (ciphertext :=
         (λ x, x - 65) <$> (ord <$> filter (λ c, c ≠ newline) (list_ascii_of_string contents))).
  assert (get_cipher_text contents = Ok ciphertext) as Hct by done.
  destruct (get_key_with_Ok_codes product (get_buckets ciphertext key_length) Hprod)
    as (key & Hkey & Hklen & Hkcodes).
  { intros Hnil. pose proof (get_buckets_length ciphertext key_length) as Hl.
    rewrite Hnil in Hl. simpl in Hl. lia. }
  rewrite get_buckets_length in Hklen.
  assert (key ≠ []) as Hkne by (intros ->; simpl in Hklen; lia).
  destruct (decode_Ok_codes ciphertext key Hkne) as (plaintext & Hpt & Hplen & Hpcodes).
  eexists _, _, _. split_and!.
  - eapply run_with_returns; [done..|by apply ints_to_string_codes|done|
                               by apply ints_to_string_codes].
  - by apply length_profile_with.
  - unfold len. rewrite length_fmap. lia.
  - by apply small_letters.
  - rewrite length_fmap, Hplen. unfold ciphertext. by rewrite !length_fmap.
  - by apply small_letters.
Qed.

Lemma run_completes_witness :
  ∃ profile key_string text,
    run_with dot argsort "a1
B" 2 = (profile ++ [KeyLine key_string; TextLine text], None)
    ∧ length profile = 16%nat
    ∧ len key_string = 2 ∧ Forall small_letter key_string
    ∧ length text
      = length (filter (λ c, c ≠ newline) (list_ascii_of_string "a1
B"))
    ∧ Forall small_letter text.
Proof.
  apply (run_completes dot argsort "a1
B" 2); [apply dot_float_product|apply argsort_ascending|lia].
Defined.

Lemma get_key_nil : get_key [] = Raise ValueError.
Proof. reflexivity. Qed.

(** X19. Given a key length of 0 or less the script prints the 16 lines of
    coincidence counts and then stops on an exception: there is no bucket,
    and the product of the empty frequency array with the matrix of
    frequency shifts raises ValueError.  No key and no text are printed. *)
Theorem run_key_length_not_positive (contents : string) (key_length : Z) :
  key_length ≤ 0 →
  ∃ profile, run contents key_length = (profile, Some ValueError)
             ∧ length profile = 16%nat
             ∧ ∀ l, l ∈ profile → ∃ shift count, l = ShiftLine shift count.
Proof.
  intros HL. eexists. split_and!.
  - unfold run, run_with, get_cipher_text. cbv beta iota zeta.
    assert (∀ ct, get_buckets ct key_length = []) as ->.
    { intros ct. unfold get_buckets, range, seqZ.
      by replace (Z.to_nat (key_length - 0)) with 0%nat by lia. }
    change (get_key_with dot []) with (get_key []). by rewrite get_key_nil.
  - apply length_profile.
  - intros l (lc & -> & _)%list_elem_of_fmap. eauto.
Qed.

Lemma run_key_length_not_positive_witness :
  ∃ profile, run "HELLO" 0 = (profile, Some ValueError)
             ∧ length profile = 16%nat
             ∧ ∀ l, l ∈ profile → ∃ shift count, l = ShiftLine shift count.
Proof. apply (run_key_length_not_positive "HELLO" 0). lia. Defined.

(** X20. On a file of capitals (and line feeds) the key and the text
    printed fit the ciphertext: reading the two strings back as Letter
    Codes ([chr(c + 97)] for [c]), the text shifted by the key is the
    ciphertext.  Whatever key the statistics arrive at, no letter of the
    ciphertext is lost in the text. *)
Theorem run_text_fits_ciphertext (contents : string) (key_length : Z) :
  1 ≤ key_length →
  Forall (λ c, ord "A" ≤ ord c ≤ ord "Z")
         (filter (λ c, c ≠ newline) (list_ascii_of_string contents)) →
  ∃ profile ciphertext key plaintext,
    get_cipher_text contents = Ok ciphertext
    ∧ run contents key_length
      = (profile ++ [KeyLine ((λ c, c + 97) <$> key);
                     TextLine ((λ c, c + 97) <$> plaintext)], None)
    ∧ Forall letter_code key ∧ Forall letter_code plaintext
    ∧ shift_by_key plaintext key = ciphertext.
Proof.
  intros HL Hcaps.
  set (ciphertext :=
         (λ x, x - 65) <$> (ord <$> filter (λ c, c ≠ newline) (list_ascii_of_string contents))).
  assert (get_cipher_text contents = Ok ciphertext) as Hct by done.
  assert (Forall letter_code ciphertext) as Hcodes.
  { unfold ciphertext. rewrite <- list_fmap_compose. apply Forall_fmap.
    eapply Forall_impl; [exact Hcaps|]. intros c. unfold letter_code, compose.
    change (ord "A") with 65. change (ord "Z") with 90. lia. }
  destruct (get_key_Ok_codes (get_buckets ciphertext key_length))
    as (key & Hkey & Hklen & Hkcodes).
  { intros Hnil. pose proof (get_buckets_length ciphertext key_length) as Hl.
    rewrite Hnil in Hl. simpl in Hl. lia. }
  rewrite get_buckets_length in Hklen.
  assert (key ≠ []) as Hkne by (intros ->; simpl in Hklen; lia).
  destruct (decode_then_shift ciphertext key Hkne Hcodes Hkcodes)
    as (plaintext & Hpt & _ & Hpcodes & Hshift).
  eexists _, ciphertext, key, plaintext. split_and!; [done| |done..].
  eapply run_returns; [done..|by apply ints_to_string_codes|done|
                        by apply ints_to_string_codes].
Qed.

Lemma run_text_fits_ciphertext_witness :
  ∃ profile ciphertext key plaintext,
    get_cipher_text "HELLO
WORLD" = Ok ciphertext
    ∧ run "HELLO
WORLD" 3
      = (profile ++ [KeyLine ((λ c, c + 97) <$> key);
                     TextLine ((λ c, c + 97) <$> plaintext)], None)
    ∧ Forall letter_code key ∧ Forall letter_code plaintext
    ∧ shift_by_key plaintext key = ciphertext.
Proof.
  apply (run_text_fits_ciphertext "HELLO
WORLD" 3); [lia|].
  repeat constructor; vm_compute; by intros.
Defined.
